(** * dpdg: dialogue parser and datapack script generator (src/App.tsx)

    A shallow embedding of the string-processing core of the [App]
    component: [getSpanFromLine], [parseDialogue], [getScriptIncrementer],
    [getSingleDialog], [getScriptFinalStatement] and [generateDialogues].

    Conventions of the embedding.
    - A JavaScript string is a sequence of UTF-16 code units.  The embedding
      uses [string]; one [ascii] stands for one code unit in the range
      U+0000..U+00FF.  The character classes below ([isWhiteSpace],
      [isLineTerminator], [toLowerCase]) are the ECMAScript ones restricted
      to that range.
    - The numbers of the component hold integers.  A field of type [number]
      is a [Z] and stands for the double nearest to it, as a numeric
      literal does; a number that is computed is a [JS.number], an
      integral double or an infinity.  [JS.add] is the addition of doubles
      (round to nearest, ties to even, overflow to infinity) and
      [JS.numberToString] is the rendering of a double in a template
      literal.  Fractions and negative zero are not represented; negative
      zero adds and prints like zero.
    - The hooks of the component ([useState], [useFieldArray]) are explicit
      state: the closures read their captured values from an [AppState],
      [console.error] appends to a log.
    - [parseDialogue] mutates only the array it builds and the [Dialog]
      objects it has pushed itself; each of them is created by one [push]
      and referenced from one slot, so the array is a list of values and
      the update of the last element is an [alter] at the last index.  The
      roster entries are shared by reference but never written to. *)

From Stdlib Require Import ZArith Ascii String Lia DecimalString DecimalPos DecimalZ.
From stdpp Require Import base list list_numbers sorting strings.

Local Open Scope Z_scope.

(** ** The data model (interfaces [Character], [Dialog], [ScriptData]) *)

Record Character := mkCharacter {
  name : string;
  scriptPrefix : string;
  contentPrefix : string;
}.

Record Dialog := mkDialog {
  user : Character;
  span : Z;
  content : string;
}.

Module ScriptData.
Record t := mk {
  name : string;
  initialCounter : Z;
  initialSpan : Z;
}.
End ScriptData.

(** ** JavaScript string primitives *)

Module JS.

Definition LF : ascii := ascii_of_nat 10.
Definition CR : ascii := ascii_of_nat 13.

Definition code (c : ascii) : nat := nat_of_ascii c.

Definition between (lo hi n : nat) : bool :=
  (Nat.leb lo n && Nat.leb n hi)%bool.

(** The regex class [[A-Za-z]]. *)
Definition isAlpha (c : ascii) : bool :=
  (between 65 90 (code c) || between 97 122 (code c))%bool.

(** WhiteSpace and LineTerminator code points below U+0100, the set
    stripped by [String.prototype.trim]. *)
Definition isWhiteSpace (c : ascii) : bool :=
  (between 9 13 (code c) || Nat.eqb (code c) 32 || Nat.eqb (code c) 160)%bool.

(** The characters the regex atom [.] refuses (no [s] flag). *)
Definition isLineTerminator (c : ascii) : bool :=
  (Nat.eqb (code c) 10 || Nat.eqb (code c) 13)%bool.

(** [String.prototype.toLowerCase] on one code unit: A-Z, and the
    Latin-1 capitals U+00C0..U+00DE except the multiplication sign. *)
Definition lowerChar (c : ascii) : ascii :=
  if (between 65 90 (code c)
      || (between 192 222 (code c) && negb (Nat.eqb (code c) 215)))%bool
  then ascii_of_nat (code c + 32) else c.

Fixpoint toLowerCase (s : string) : string :=
  match s with
  | EmptyString => EmptyString
  | String c s' => String (lowerChar c) (toLowerCase s')
  end.

Fixpoint trimStart (s : string) : string :=
  match s with
  | EmptyString => EmptyString
  | String c s' => if isWhiteSpace c then trimStart s' else s
  end.

Fixpoint trimEnd (s : string) : string :=
  match s with
  | EmptyString => EmptyString
  | String c s' =>
      match trimEnd s' with
      | EmptyString => if isWhiteSpace c then EmptyString else String c EmptyString
      | r => String c r
      end
  end.

Definition trim (s : string) : string := trimEnd (trimStart s).

(** [s.split('\n')]: the pieces between line feeds; never empty. *)
Fixpoint split_lines (s : string) : list string :=
  match s with
  | EmptyString => [EmptyString]
  | String c s' =>
      if Ascii.eqb c LF then EmptyString :: split_lines s'
      else match split_lines s' with
           | [] => [String c EmptyString]
           | l :: ls => String c l :: ls
           end
  end.

(** *** Numbers

    The integral values of the type Number: a finite integer that is a
    double, an infinity, or NaN. *)
Inductive number :=
| Num (z : Z)
| Inf (negative : bool)
| NaN.

(** The double nearest to an integer: 53 significant bits, round to
    nearest, ties to the even significand; a result of magnitude 2^1024 or
    more is an infinity. *)
Definition roundDouble (z : Z) : number :=
  let a := Z.abs z in
  if a <? 2 ^ 53 then Num z
  else
    let e := Z.log2 a - 52 in
    let q := a / 2 ^ e in
    let r := a mod 2 ^ e in
    let m := if r <? 2 ^ (e - 1) then q
             else if 2 ^ (e - 1) <? r then q + 1
             else if Z.even q then q else q + 1 in
    if 2 ^ 1024 <=? m * 2 ^ e then Inf (z <? 0) else Num (Z.sgn z * (m * 2 ^ e)).

(** The number an integral field or literal stands for. *)
Definition ofZ (z : Z) : number := roundDouble z.

(** The double a number stands for; the numbers the operations below
    return are doubles already. *)
Definition toDouble (n : number) : number :=
  match n with
  | Num z => roundDouble z
  | _ => n
  end.

(** The operator [+] on two numbers. *)
Definition add (a b : number) : number :=
  match toDouble a, toDouble b with
  | NaN, _ | _, NaN => NaN
  | Inf s, Inf s' => if Bool.eqb s s' then Inf s else NaN
  | Inf s, Num _ => Inf s
  | Num _, Inf s => Inf s
  | Num x, Num y => roundDouble (x + y)
  end.

(** The decimal numeral of an integer. *)
Definition decimal (z : Z) : string := NilZero.string_of_int (Z.to_int z).

(** The integer [y] reads back as the double [x]. *)
Definition denotes (y x : Z) : bool :=
  match roundDouble y with
  | Num v => v =? x
  | _ => false
  end.

(** Number::toString picks, for a double [x] of [d] decimal digits, the
    integer with the fewest significant digits [k] that reads back as [x];
    of two candidates the one nearer to [x], of two equally near the one
    with the even last digit. *)
Fixpoint shortest (fuel : nat) (k d x : Z) : Z :=
  match fuel with
  | O => x
  | S fuel' =>
      if d <? k then x
      else
        let p := 10 ^ (d - k) in
        let lo := x / p * p in
        let hi := lo + p in
        match denotes lo x, denotes hi x with
        | true, true =>
            if x - lo <? hi - x then lo
            else if hi - x <? x - lo then hi
            else if Z.even (lo / p) then lo else hi
        | true, false => lo
        | false, true => hi
        | false, false => shortest fuel' (k + 1) d x
        end
  end.

Fixpoint stripZeros (s : string) : string :=
  match s with
  | EmptyString => EmptyString
  | String c s' =>
      match stripZeros s' with
      | EmptyString => if Ascii.eqb c "0" then EmptyString else String c EmptyString
      | r => String c r
      end
  end.

(** The exponent notation used from 10^21 on. *)
Definition exponential (y : Z) : string :=
  let digits := decimal y in
  let n := Z.of_nat (String.length digits) in
  match stripZeros digits with
  | EmptyString => "0"
  | String c EmptyString => String c ("e+" +:+ decimal (n - 1))
  | String c rest => String c ("." +:+ rest +:+ "e+" +:+ decimal (n - 1))
  end.

Definition toStringLarge (x : Z) : string :=
  let d := Z.of_nat (String.length (decimal x)) in
  let y := shortest 17 1 d x in
  if y <? 10 ^ 21 then decimal y else exponential y.

(** Template-literal rendering of a number.  Below 2^53 every integer is a
    double of its own and its shortest numeral is its decimal numeral. *)
Definition numberToString (n : number) : string :=
  match toDouble n with
  | NaN => "NaN"
  | Inf false => "Infinity"
  | Inf true => "-Infinity"
  | Num z =>
      if Z.abs z <? 2 ^ 53 then decimal z
      else if z <? 0 then "-" +:+ toStringLarge (- z) else toStringLarge z
  end.

(** [s.match(/[A-Za-z]+/g)]: every match of the class, left to right,
    each one greedy; [cur] is the match being extended. *)
Fixpoint scanAlpha (cur : option string) (s : string) : list string :=
  match s with
  | EmptyString => match cur with Some r => [r] | None => [] end
  | String c s' =>
      if isAlpha c
      then scanAlpha (Some (default EmptyString cur +:+ String c EmptyString)) s'
      else match cur with
           | Some r => r :: scanAlpha None s'
           | None => scanAlpha None s'
           end
  end.

(** A global [match] returns [null] when nothing matches. *)
Definition matchAlphaGlobal (s : string) : option (list string) :=
  match scanAlpha None s with
  | [] => None
  | occ => Some occ
  end.

(** The longest alphabetic prefix of a string, and the rest. *)
Fixpoint spanAlpha (s : string) : string * string :=
  match s with
  | EmptyString => (EmptyString, EmptyString)
  | String c s' =>
      if isAlpha c
      then let '(a, r) := spanAlpha s' in (String c a, r)
      else (EmptyString, s)
  end.

Fixpoint noLineTerminator (s : string) : bool :=
  match s with
  | EmptyString => true
  | String c s' => (negb (isLineTerminator c) && noLineTerminator s')%bool
  end.

(** The [line.match] of [parseDialogue].  Its regex is anchored at both
    ends and has two capture groups: one or more characters of the class
    [[A-Za-z]], then a colon and a space, then any run of the atom [.] up
    to the end of the input.  The result is the pair of groups, or [None]
    for [null].  The first group is greedy and must be followed by a
    colon, which is not alphabetic, so only the longest alphabetic prefix
    can succeed; the atom [.] refuses line terminators. *)
Definition matchSpeakerLine (line : string) : option (string * string) :=
  match spanAlpha line with
  | (String a speaker, String c1 (String c2 rest)) =>
      if (Ascii.eqb c1 ":" && Ascii.eqb c2 " " && noLineTerminator rest)%bool
      then Some (String a speaker, rest)
      else None
  | _ => None
  end.

End JS.

Coercion JS.ofZ : Z >-> JS.number.
Arguments JS.roundDouble : simpl never.
Arguments JS.numberToString : simpl never.

(** ** The functions of the component *)

Definition getSpanFromLine (line : string) : Z :=
  let trimmedLine := JS.trim line in
  let characterMultiplier := 4 in
  match JS.matchAlphaGlobal trimmedLine with
  | Some occurences => Z.of_nat (length occurences) * characterMultiplier
  | None => 0
  end.


(** *** The parser *)

Definition newline : string := String JS.LF EmptyString.

(** [dialogues[dialogues.length - 1].content += extra] on one element. *)
Definition appendContent (extra : string) (d : Dialog) : Dialog :=
  {| user := user d; span := span d; content := content d +:+ extra |}.

(** [usersFields.find(user => user.scriptPrefix.toLowerCase() === speaker)] *)
Definition findUser (usersFields : list Character) (caseInsensitiveSpeaker : string)
  : option Character :=
  find (fun user => String.eqb (JS.toLowerCase (scriptPrefix user)) caseInsensitiveSpeaker)
       usersFields.

(** The state of the loop of [parseDialogue]: the array [dialogues] and the
    messages written with [console.error], oldest first. *)
Record ParseState := mkParseState {
  parsed : list Dialog;
  console : list string;
}.

Definition consoleError (msg : string) (st : ParseState) : ParseState :=
  {| parsed := parsed st; console := console st ++ [msg] |}.

(** One iteration of [for (const line of dialogueLines)]. *)
Definition parseLine (usersFields : list Character) (st : ParseState) (line : string)
  : ParseState :=
  match JS.matchSpeakerLine line with
  | Some (speaker, content) =>
      let span := getSpanFromLine line in
      let caseInsensitiveSpeaker := JS.toLowerCase speaker in
      match findUser usersFields caseInsensitiveSpeaker with
      | Some user =>
          {| parsed := parsed st ++ [mkDialog user span content];
             console := console st |}
      | None => consoleError ("Unknown speaker: " +:+ caseInsensitiveSpeaker) st
      end
  | None =>
      if Nat.ltb 0 (length (parsed st))
      then {| parsed := alter (appendContent (newline +:+ line))
                              (length (parsed st) - 1)%nat (parsed st);
              console := console st |}
      else consoleError ("Invalid dialogue line: " +:+ line) st
  end.

Definition parseLines (usersFields : list Character) (st : ParseState)
  (dialogueLines : list string) : ParseState :=
  fold_left (parseLine usersFields) dialogueLines st.

(** [parseDialogue] with its console output. *)
Definition parseDialogueLog (usersFields : list Character) (dialogueString : string)
  : ParseState :=
  let dialogueLines := JS.split_lines dialogueString in
  parseLines usersFields (mkParseState [] []) dialogueLines.

Definition parseDialogue (usersFields : list Character) (dialogueString : string)
  : list Dialog :=
  parsed (parseDialogueLog usersFields dialogueString).

(** *** The generator *)

Definition quote : string := String (ascii_of_nat 34) EmptyString.
Definition quoted (s : string) : string := quote +:+ s +:+ quote.

Definition getScriptIncrementer (scriptData : ScriptData.t) : string :=
  "scoreboard players add @s " +:+ ScriptData.name scriptData +:+ " "
    +:+ JS.numberToString (ScriptData.initialCounter scriptData) +:+ newline.

Definition getSingleDialog (scriptData : ScriptData.t) (incrementer : JS.number)
  (dialog : Dialog)
  : string :=
  let contentPrefix := contentPrefix (user dialog) in
  "execute if score @s " +:+ ScriptData.name scriptData +:+ " matches "
    +:+ JS.numberToString incrementer +:+ " run tellraw @a [" +:+ contentPrefix
    +:+ ", {" +:+ quoted "text" +:+ ":" +:+ quoted (content dialog)
    +:+ ", " +:+ quoted "italic" +:+ ": true, "
    +:+ quoted "color" +:+ ":" +:+ quoted "gray"
    +:+ ", " +:+ quoted "bold" +:+ ": " +:+ quoted "false" +:+ "}]" +:+ newline.

Definition getScriptFinalStatement (scriptData : ScriptData.t) (incrementer : JS.number)
  : string :=
  "execute if score @s " +:+ ScriptData.name scriptData +:+ " matches "
    +:+ JS.numberToString incrementer +:+ ".. run scoreboard players set @s "
    +:+ ScriptData.name scriptData +:+ " -1" +:+ newline.

(** The state held by the hooks of [App]. *)
Record AppState := mkAppState {
  dialogues : list Dialog;
  finalScript : string;
  rawScript : string;
  scriptData : ScriptData.t;
  usersFields : list Character;
}.

Definition setFinalScript (s : string) (st : AppState) : AppState :=
  {| dialogues := dialogues st; finalScript := s; rawScript := rawScript st;
     scriptData := scriptData st; usersFields := usersFields st |}.

(** The two variables of the loop of [generateDialogues]. *)
Record GenState := mkGenState {
  realScriptContent : string;
  conversationSpan : JS.number;
}.

(** The body of [for (let i = 0; i < dialogues.length; i++)], which reads
    [dialogues[i]] for each index in turn. *)
Definition generateStep (scriptData : ScriptData.t) (g : GenState) (dialog : Dialog)
  : GenState :=
  {| realScriptContent :=
       realScriptContent g +:+ getSingleDialog scriptData (conversationSpan g) dialog;
     conversationSpan := JS.add (conversationSpan g) (span dialog) |}.

Definition generateLoop (scriptData : ScriptData.t) (ds : list Dialog) : GenState :=
  fold_left (generateStep scriptData) ds
            (mkGenState EmptyString (ScriptData.initialSpan scriptData)).

(** The string that [generateDialogues] hands to [setFinalScript]. *)
Definition wholeScriptContent (scriptData : ScriptData.t) (ds : list Dialog) : string :=
  let initialScriptContent := getScriptIncrementer scriptData in
  let g := generateLoop scriptData ds in
  let endingScriptContent := getScriptFinalStatement scriptData (conversationSpan g) in
  initialScriptContent +:+ realScriptContent g +:+ endingScriptContent.

Definition generateDialogues (st : AppState) : AppState :=
  setFinalScript (wholeScriptContent (scriptData st) (dialogues st)) st.

(** ** Notions used to state the properties *)

(** Concatenation of emitted statements, in emission order. *)
Definition joinAll (l : list string) : string := foldr String.append EmptyString l.

Definition sumSpans (ds : list Dialog) : Z := foldr (fun d acc => span d + acc) 0 ds.

(** The threshold of statement [i]: the initial span plus the spans of the
    dialogues before index [i]. *)
Definition threshold (scriptData : ScriptData.t) (ds : list Dialog) (i : nat) : Z :=
  ScriptData.initialSpan scriptData + sumSpans (take i ds).

(** Number.isSafeInteger: magnitude at most 2^53 - 1. *)
Definition safeInteger (z : Z) : bool := Z.abs z <=? 2 ^ 53 - 1.

(** A run of the generator stays within the safe integers: every span,
    the initial span and every partial sum are safe. *)
Definition safeRun (scriptData : ScriptData.t) (ds : list Dialog) : bool :=
  (forallb (fun d => safeInteger (span d)) ds
   && forallb (fun i => safeInteger (threshold scriptData ds i))
              (seq 0 (S (length ds))))%bool.

(** A number produced by the operations is a double: rounding it again
    changes nothing. *)
Definition normal (n : JS.number) : Prop :=
  match n with
  | JS.Num z => JS.roundDouble z = JS.Num z
  | _ => True
  end.

(** A maximal run of alphabetic characters starts at index [i] when the
    character at [i] is alphabetic and the one before it, if any, is not.
    Every maximal run has exactly one start. *)
Definition runStartsAt (s : string) (i : nat) : bool :=
  match String.get i s with
  | Some c =>
      (JS.isAlpha c &&
       match i with
       | O => true
       | S j => match String.get j s with
                | Some p => negb (JS.isAlpha p)
                | None => true
                end
       end)%bool
  | None => false
  end.

Definition maximalAlphaRuns (s : string) : nat :=
  length (List.filter (runStartsAt s) (seq 0 (String.length s))).

(** [runStartsAt] when the character before the string is known. *)
Definition startsAfter (prev : bool) (s : string) (i : nat) : bool :=
  match i with
  | O => match String.get 0 s with
         | Some c => (JS.isAlpha c && negb prev)%bool
         | None => false
         end
  | S _ => runStartsAt s i
  end.

(** Every character of the string is in the class [[A-Za-z]]. *)
Fixpoint allAlpha (s : string) : bool :=
  match s with
  | EmptyString => true
  | String c s' => (JS.isAlpha c && allAlpha s')%bool
  end.

(** The dialogue [d] stems from the speaker line [line]: the line matches
    the speaker pattern, its tag resolves to the user of [d], the span of
    [d] is the one computed from the line, and the content of [d] starts
    with the text of the line. *)
Definition producedFrom (usersFields : list Character) (line : string) (d : Dialog)
  : Prop :=
  exists speaker ct extra,
    JS.matchSpeakerLine line = Some (speaker, ct)
    /\ findUser usersFields (JS.toLowerCase speaker) = Some (user d)
    /\ span d = getSpanFromLine line
    /\ content d = ct +:+ extra.



(** How [parseDialogue] treats a line: a recognized speaker line resolves
    to a roster entry. *)
Definition recognized (usersFields : list Character) (line : string) : bool :=
  match JS.matchSpeakerLine line with
  | Some (speaker, _) => bool_decide (is_Some (findUser usersFields (JS.toLowerCase speaker)))
  | None => false
  end.

Definition isContinuation (line : string) : bool :=
  bool_decide (JS.matchSpeakerLine line = None).

Definition initialParseState : ParseState := mkParseState [] [].

(** ** The remaining handlers of the component *)

(** [usersFields.find((user) => user.name === username)] *)
Definition getUserFromUsername (usersFields : list Character) (username : string)
  : option Character :=
  find (fun user => String.eqb (name user) username) usersFields.

Definition setDialogues (ds : list Dialog) (st : AppState) : AppState :=
  {| dialogues := ds; finalScript := finalScript st; rawScript := rawScript st;
     scriptData := scriptData st; usersFields := usersFields st |}.

Definition setUsers (us : list Character) (st : AppState) : AppState :=
  {| dialogues := dialogues st; finalScript := finalScript st;
     rawScript := rawScript st; scriptData := scriptData st; usersFields := us |}.

(** [addDialogue]: the next state and the messages written with
    [console.error].  An unknown name logs and returns early; otherwise the
    updater [[...prevDialogues, { user, span: 0, content: '' }]] runs. *)
Definition addDialogue (userName : string) (st : AppState) : AppState * list string :=
  match getUserFromUsername (usersFields st) userName with
  | None => (st, ["User " +:+ userName +:+ " not found"])
  | Some user =>
      (setDialogues (dialogues st ++ [mkDialog user 0 EmptyString]) st, [])
  end.

(** The click handler of the button [New user]: one more roster entry, all
    of whose fields are empty. *)
Definition blankUser : Character := mkCharacter EmptyString EmptyString EmptyString.

Definition newUser (st : AppState) : AppState :=
  setUsers (usersFields st ++ [blankUser]) st.

(** [dialogues[index].span = v], the change handler of the span input
    (second revision), for an integral value. *)
Definition setSpan (v : Z) (d : Dialog) : Dialog :=
  {| user := user d; span := v; content := content d |}.

Definition onChangeSpan (index : nat) (valueAsNumber : Z) (st : AppState) : AppState :=
  setDialogues (alter (setSpan valueAsNumber) index (dialogues st)) st.

(** [dialogues[index].span = e.target.valueAsNumber * 20], the handler of
    the input that shows the span divided by 20. *)
Definition onChangeSpanSeconds (index : nat) (valueAsNumber : Z) (st : AppState)
  : AppState :=
  onChangeSpan index (valueAsNumber * 20) st.

(** ** Further notions used to state properties *)

(** The lines put back together with a line feed between neighbours. *)
Fixpoint joinLines (l : list string) : string :=
  match l with
  | [] => EmptyString
  | x :: rest =>
      match rest with
      | [] => x
      | _ :: _ => x +:+ newline +:+ joinLines rest
      end
  end.

Fixpoint containsChar (c : ascii) (s : string) : bool :=
  match s with
  | EmptyString => false
  | String x s' => (Ascii.eqb x c || containsChar c s')%bool
  end.

(** A line that matches the speaker pattern but resolves to no user. *)
Definition unresolved (usersFields : list Character) (line : string) : bool :=
  match JS.matchSpeakerLine line with
  | Some (speaker, _) =>
      negb (bool_decide (is_Some (findUser usersFields (JS.toLowerCase speaker))))
  | None => false
  end.

(** The message [parseDialogue] logs for a line it drops while no dialogue
    exists yet. *)
Definition diagnostic (line : string) : string :=
  match JS.matchSpeakerLine line with
  | Some (speaker, _) => "Unknown speaker: " +:+ JS.toLowerCase speaker
  | None => "Invalid dialogue line: " +:+ line
  end.

(** The configuration with its initial span advanced by [delta]. *)
Definition advanceSpan (delta : Z) (scriptData : ScriptData.t) : ScriptData.t :=
  ScriptData.mk (ScriptData.name scriptData) (ScriptData.initialCounter scriptData)
                (ScriptData.initialSpan scriptData + delta).

(** The roster of the worked example. *)
Definition alice : Character := mkCharacter "Alice" "A" "Alice: ".

(** ** Examples *)

Example getSpanFromLine_ex1 : getSpanFromLine "A: Hello there" = 12.
Proof. reflexivity. Qed.

Example numberToString_ex :
  map (fun z : Z => JS.numberToString z)
      [0; 10; -1; 1234; 2 ^ 53; 2 ^ 53 + 1; 2 ^ 53 + 3; 10 ^ 18 + 10; 2 ^ 60;
       10 ^ 21; 2 ^ 70; 10 ^ 23; - 2 ^ 64; 2 ^ 1024] =
  ["0"; "10"; "-1"; "1234"; "9007199254740992"; "9007199254740992";
   "9007199254740996"; "1000000000000000000"; "1152921504606847000";
   "1e+21"; "1.1805916207174113e+21"; "1e+23"; "-18446744073709552000";
   "Infinity"].
Proof. vm_compute. reflexivity. Qed.

Example add_rounds :
  JS.add (JS.add (2 ^ 53) 1) 1 = JS.Num (2 ^ 53)
  /\ JS.add (2 ^ 1023) (2 ^ 1023) = JS.Inf false.
Proof. vm_compute. split; reflexivity. Qed.

Example generate_empty_X :
  wholeScriptContent (ScriptData.mk "X" 1 10) [] =
  "scoreboard players add @s X 1" +:+ newline +:+
  "execute if score @s X matches 10.. run scoreboard players set @s X -1" +:+ newline.
Proof. reflexivity. Qed.

(** ** Strings *)

Lemma append_nil_l (a : string) : EmptyString +:+ a = a.
Proof. reflexivity. Qed.

Lemma append_cons (x : ascii) (a b : string) :
  String x a +:+ b = String x (a +:+ b).
Proof. reflexivity. Qed.

Lemma append_assoc (a b c : string) : (a +:+ b) +:+ c = a +:+ (b +:+ c).
Proof.
  induction a as [|x a IH]; [reflexivity |].
  now rewrite !append_cons, IH.
Qed.

Lemma append_nil_r (a : string) : a +:+ EmptyString = a.
Proof.
  induction a as [|x a IH]; [reflexivity |].
  now rewrite append_cons, IH.
Qed.

Lemma joinAll_app (l1 l2 : list string) :
  joinAll (l1 ++ l2) = joinAll l1 +:+ joinAll l2.
Proof.
  induction l1 as [|x l1 IH]; simpl; [reflexivity |].
  fold (joinAll (l1 ++ l2)). rewrite IH. fold (joinAll l1).
  now rewrite append_assoc.
Qed.

(** ** Numbers *)

Section Numbers.

Lemma safeInteger_spec (z : Z) : safeInteger z = true <-> Z.abs z < 2 ^ 53.
Proof. unfold safeInteger. rewrite Z.leb_le. lia. Qed.

Lemma roundDouble_small (z : Z) : Z.abs z < 2 ^ 53 -> JS.roundDouble z = JS.Num z.
Proof.
  intros H. unfold JS.roundDouble.
  destruct (Z.ltb_spec (Z.abs z) (2 ^ 53)); [reflexivity | lia].
Qed.

Lemma ofZ_safe (z : Z) : safeInteger z = true -> JS.ofZ z = JS.Num z.
Proof. intros H. apply roundDouble_small. now apply safeInteger_spec. Qed.

Lemma add_safe (a b : Z) :
  safeInteger a = true -> safeInteger b = true -> safeInteger (a + b) = true ->
  JS.add (JS.Num a) (JS.Num b) = JS.Num (a + b).
Proof.
  intros Ha Hb H. unfold JS.add, JS.toDouble.
  rewrite (roundDouble_small a), (roundDouble_small b) by now apply safeInteger_spec.
  apply roundDouble_small. now apply safeInteger_spec.
Qed.

Lemma numberToString_safe (z : Z) :
  safeInteger z = true -> JS.numberToString (JS.Num z) = JS.decimal z.
Proof.
  intros H. apply safeInteger_spec in H. unfold JS.numberToString, JS.toDouble.
  rewrite (roundDouble_small z H).
  destruct (Z.ltb_spec (Z.abs z) (2 ^ 53)); [reflexivity | lia].
Qed.

(** A multiple of a power of two whose quotient has 53 bits is a double. *)
Lemma roundDouble_aligned (v e : Z) :
  1 <= e -> 0 < v -> v mod 2 ^ e = 0 -> Z.log2 v - 52 = e ->
  2 ^ 53 <= v -> v < 2 ^ 1024 ->
  forall s, s = 1 \/ s = -1 -> JS.roundDouble (s * v) = JS.Num (s * v).
Proof.
  intros He Hv Hmod Hlog Hbig Hsmall s Hs.
  unfold JS.roundDouble.
  assert (Ha : Z.abs (s * v) = v) by (destruct Hs; subst; lia).
  rewrite Ha.
  destruct (Z.ltb_spec v (2 ^ 53)); [lia |].
  rewrite Hlog, Hmod.
  assert (Hhalf : 0 < 2 ^ (e - 1)) by (apply Z.pow_pos_nonneg; lia).
  destruct (Z.ltb_spec 0 (2 ^ (e - 1))); [|lia].
  assert (Hp : 0 < 2 ^ e) by (apply Z.pow_pos_nonneg; lia).
  assert (Hdiv : v / 2 ^ e * 2 ^ e = v).
  { pose proof (Z.div_mod v (2 ^ e) ltac:(lia)). lia. }
  rewrite Hdiv.
  destruct (Z.leb_spec (2 ^ 1024) v); [lia |].
  f_equal. destruct Hs; subst; lia.
Qed.

(** Rounding is idempotent. *)
Lemma roundDouble_normal (z : Z) : normal (JS.roundDouble z).
Proof.
  unfold JS.roundDouble at 1.
  destruct (Z.ltb_spec (Z.abs z) (2 ^ 53)) as [Hs | Hb].
  - simpl. now apply roundDouble_small.
  - set (a := Z.abs z) in *.
    set (e := Z.log2 a - 52).
    set (q := a / 2 ^ e).
    set (r := a mod 2 ^ e).
    set (m := if r <? 2 ^ (e - 1) then q
              else if 2 ^ (e - 1) <? r then q + 1
              else if Z.even q then q else q + 1).
    destruct (Z.leb_spec (2 ^ 1024) (m * 2 ^ e)) as [Ho | Hn]; [exact I |].
    simpl.
    assert (Ha : 0 < a) by lia.
    pose proof (Z.log2_spec a Ha) as [Hlo Hhi].
    assert (Hlog : 53 <= Z.log2 a) by (apply Z.log2_le_pow2; lia).
    assert (He : 1 <= e) by (unfold e; lia).
    assert (Hp : 0 < 2 ^ e) by (apply Z.pow_pos_nonneg; lia).
    assert (Hsplit : 2 ^ Z.log2 a = 2 ^ 52 * 2 ^ e).
    { unfold e. rewrite <- Z.pow_add_r by lia. f_equal. lia. }
    assert (Hsplit' : 2 ^ Z.succ (Z.log2 a) = 2 ^ 53 * 2 ^ e).
    { unfold e. rewrite <- Z.pow_add_r by lia. f_equal. lia. }
    assert (Hq : 2 ^ 52 <= q < 2 ^ 53).
    { unfold q. split.
      - apply Z.div_le_lower_bound; lia.
      - apply Z.div_lt_upper_bound; lia. }
    assert (Hm : 2 ^ 52 <= m <= 2 ^ 53).
    { unfold m. destruct (r <? 2 ^ (e - 1)); [lia |].
      destruct (2 ^ (e - 1) <? r); [lia |]. destruct (Z.even q); lia. }
    assert (Hsgn : Z.sgn z = 1 \/ Z.sgn z = -1) by lia.
    assert (Hv : 2 ^ 53 <= m * 2 ^ e).
    { assert (2 ^ 1 <= 2 ^ e) by (apply Z.pow_le_mono_r; lia).
      change (2 ^ 53) with (2 ^ 52 * 2 ^ 1). nia. }
    destruct (Z.eq_dec m (2 ^ 53)) as [Em | Nm].
    + apply (roundDouble_aligned (m * 2 ^ e) (e + 1)); try lia.
      * rewrite Em. replace (2 ^ 53 * 2 ^ e) with (2 ^ 52 * 2 ^ (e + 1)).
        { apply Z.mod_mul. apply Z.pow_nonzero; lia. }
        rewrite Z.pow_add_r by lia. change (2 ^ 53) with (2 ^ 52 * 2). lia.
      * rewrite Em, <- Z.pow_add_r by lia. rewrite Z.log2_pow2 by lia. lia.
    + apply (roundDouble_aligned (m * 2 ^ e) e); try lia.
      * apply Z.mod_mul. lia.
      * assert (Z.log2 (m * 2 ^ e) = 52 + e); [|lia].
        apply Z.log2_unique; [lia |].
        rewrite Z.pow_add_r by lia.
        replace (2 ^ Z.succ (52 + e)) with (2 ^ 53 * 2 ^ e)
          by (rewrite <- Z.pow_add_r by lia; f_equal; lia).
        nia.
Qed.

Lemma add_normal (a b : JS.number) : normal (JS.add a b).
Proof.
  unfold JS.add.
  destruct (JS.toDouble a) as [x | s |], (JS.toDouble b) as [y | s' |];
    try exact I.
  - apply roundDouble_normal.
  - destruct (Bool.eqb s s'); exact I.
Qed.

Lemma toDouble_normal (a : JS.number) : normal a -> JS.toDouble a = a.
Proof. destruct a; [intros H; exact H | reflexivity | reflexivity]. Qed.

(** Adding zero to a double gives it back. *)
Lemma add_zero (a : JS.number) : normal a -> JS.add a (JS.ofZ 0) = a.
Proof.
  intros Ha. unfold JS.add. rewrite (toDouble_normal a Ha).
  change (JS.toDouble (JS.ofZ 0)) with (JS.Num 0).
  destruct a as [x | s |]; try reflexivity.
  rewrite Z.add_0_r. exact Ha.
Qed.

End Numbers.

(** ** The generator *)

Section Generator.
Variable scriptData : ScriptData.t.

Lemma generateLoop_snoc (ds : list Dialog) (d : Dialog) :
  generateLoop scriptData (ds ++ [d]) =
  generateStep scriptData (generateLoop scriptData ds) d.
Proof. unfold generateLoop. now rewrite fold_left_app. Qed.

Lemma generateLoop_normal (ds : list Dialog) :
  normal (conversationSpan (generateLoop scriptData ds)).
Proof.
  induction ds as [|d ds _] using rev_ind.
  - apply roundDouble_normal.
  - rewrite generateLoop_snoc. apply add_normal.
Qed.

(** The loop invariant of [generateDialogues], from any starting point
    and within the safe integers: the statements are appended to the text
    built so far, each gated at the running threshold, and the running
    threshold is the exact sum. *)
Lemma generateLoop_from (ds : list Dialog) (acc : string) (t : Z) :
  Forall (fun d => safeInteger (span d) = true) ds ->
  (forall i, (i <= length ds)%nat -> safeInteger (t + sumSpans (take i ds)) = true) ->
  fold_left (generateStep scriptData) ds (mkGenState acc (JS.Num t)) =
  mkGenState
    (acc +:+ joinAll (imap (fun i d =>
               getSingleDialog scriptData (JS.Num (t + sumSpans (take i ds))) d) ds))
    (JS.Num (t + sumSpans ds)).
Proof.
  intros Hspans. revert acc t.
  induction Hspans as [|d ds Hd _ IH]; intros acc t Hsums; simpl.
  - now rewrite append_nil_r, Z.add_0_r.
  - unfold generateStep at 2. cbn [realScriptContent conversationSpan].
    rewrite (ofZ_safe _ Hd), add_safe; [| | exact Hd |].
    2:{ specialize (Hsums 0%nat ltac:(simpl; lia)). simpl in Hsums.
        now rewrite Z.add_0_r in Hsums. }
    2:{ specialize (Hsums 1%nat ltac:(simpl; lia)). simpl in Hsums.
        now rewrite Z.add_0_r in Hsums. }
    rewrite IH.
    + f_equal.
      * rewrite append_assoc, Z.add_0_r. do 3 f_equal.
        apply imap_ext. intros i x _. simpl. do 2 f_equal. lia.
      * f_equal. lia.
    + intros i Hi. specialize (Hsums (S i) ltac:(simpl; lia)). simpl in Hsums.
      now rewrite Z.add_assoc in Hsums.
Qed.

Lemma safeRun_spec (ds : list Dialog) :
  safeRun scriptData ds = true ->
  Forall (fun d => safeInteger (span d) = true) ds
  /\ (forall i, (i <= length ds)%nat -> safeInteger (threshold scriptData ds i) = true).
Proof.
  unfold safeRun. intros H. apply andb_prop in H as [H1 H2]. split.
  - apply Forall_forall. intros d Hd. rewrite forallb_forall in H1.
    apply H1. now apply list_elem_of_In.
  - intros i Hi. rewrite forallb_forall in H2. apply H2. apply in_seq. lia.
Qed.

Lemma generateLoop_closed (ds : list Dialog) :
  safeRun scriptData ds = true ->
  generateLoop scriptData ds =
  mkGenState
    (joinAll (imap (fun i d =>
       getSingleDialog scriptData (JS.Num (threshold scriptData ds i)) d) ds))
    (JS.Num (threshold scriptData ds (length ds))).
Proof.
  intros Hsafe. destruct (safeRun_spec ds Hsafe) as [Hspans Hsums].
  unfold generateLoop.
  rewrite (ofZ_safe (ScriptData.initialSpan scriptData)).
  2:{ specialize (Hsums 0%nat ltac:(lia)). unfold threshold in Hsums. simpl in Hsums.
      now rewrite Z.add_0_r in Hsums. }
  rewrite generateLoop_from by assumption. simpl.
  unfold threshold. now rewrite firstn_all.
Qed.

End Generator.

(** C1, as stated, fails.  With initial span 10 and the spans 10^18 and 8
    the thresholds of the claim are 10, 10^18 + 10 and 10^18 + 18.  The
    loop adds doubles: 10 + 10^18 is rounded to 10^18, and so is
    10^18 + 8, so the second statement and the closing statement are both
    gated at 1000000000000000000. *)
Lemma generate_rounds_large_thresholds :
  let cfg := ScriptData.mk "S" 1 10 in
  let d0 := mkDialog alice (10 ^ 18) "a" in
  let d1 := mkDialog alice 8 "b" in
  wholeScriptContent cfg [d0; d1] =
    getScriptIncrementer cfg
    +:+ getSingleDialog cfg (JS.Num 10) d0
    +:+ getSingleDialog cfg (JS.Num (10 ^ 18)) d1
    +:+ getScriptFinalStatement cfg (JS.Num (10 ^ 18))
  /\ JS.numberToString (JS.Num (10 ^ 18)) = "1000000000000000000"
  /\ JS.decimal (threshold cfg [d0; d1] 1) = "1000000000000000010"
  /\ JS.decimal (threshold cfg [d0; d1] 2) = "1000000000000000018"
  /\ JS.numberToString (conversationSpan (generateLoop cfg [d0]))
     <> JS.decimal (threshold cfg [d0; d1] 1)
  /\ JS.numberToString (conversationSpan (generateLoop cfg [d0; d1]))
     <> JS.decimal (threshold cfg [d0; d1] 2).
Proof.
  vm_compute. repeat split; try reflexivity; discriminate.
Qed.

(** C1, amended. For every script configuration and every sequence of
    dialogues whose spans, initial span and partial sums are all safe
    integers, the generated script is the increment statement, then one
    tellraw statement per dialogue where statement [i] (from 0) is gated
    at the initial span plus the spans of the dialogues before [i], then
    the closing statement; the closing statement is gated at the initial
    span plus all spans, followed by two dots, and sets the score to -1.
    The thresholds are printed as decimal numerals. *)
Theorem generate_thresholds (scriptData : ScriptData.t) (ds : list Dialog) :
  safeRun scriptData ds = true ->
  wholeScriptContent scriptData ds =
    getScriptIncrementer scriptData
    +:+ joinAll (imap (fun i d =>
          getSingleDialog scriptData
            (JS.Num (ScriptData.initialSpan scriptData + sumSpans (take i ds))) d) ds)
    +:+ getScriptFinalStatement scriptData
          (JS.Num (ScriptData.initialSpan scriptData + sumSpans ds))
  /\ (forall t d,
        safeInteger t = true ->
        getSingleDialog scriptData (JS.Num t) d =
          ("execute if score @s " +:+ ScriptData.name scriptData +:+ " matches "
             +:+ JS.decimal t +:+ " run tellraw @a [")
          +:+ contentPrefix (user d)
          +:+ ", {" +:+ quoted "text" +:+ ":" +:+ quoted (content d)
          +:+ ", " +:+ quoted "italic" +:+ ": true, "
          +:+ quoted "color" +:+ ":" +:+ quoted "gray"
          +:+ ", " +:+ quoted "bold" +:+ ": " +:+ quoted "false" +:+ "}]" +:+ newline)
  /\ (forall t,
        safeInteger t = true ->
        getScriptFinalStatement scriptData (JS.Num t) =
          ("execute if score @s " +:+ ScriptData.name scriptData +:+ " matches "
             +:+ JS.decimal t +:+ "..")
          +:+ " run scoreboard players set @s " +:+ ScriptData.name scriptData
          +:+ " -1" +:+ newline)
  /\ (forall i, (i <= length ds)%nat ->
        safeInteger (ScriptData.initialSpan scriptData + sumSpans (take i ds)) = true).
Proof.
  intros Hsafe. split; [|split; [|split]].
  - unfold wholeScriptContent. rewrite generateLoop_closed by exact Hsafe. simpl.
    unfold threshold. now rewrite firstn_all.
  - intros t d Ht. unfold getSingleDialog.
    rewrite (numberToString_safe t Ht). now rewrite !append_assoc.
  - intros t Ht. unfold getScriptFinalStatement.
    rewrite (numberToString_safe t Ht). rewrite !append_assoc. reflexivity.
  - apply (safeRun_spec scriptData ds Hsafe).
Qed.

Lemma generate_thresholds_witness :
  let cfg := ScriptData.mk "S" 1 10 in
  let ds := [mkDialog alice 12 "Hello there"; mkDialog alice 8 "bye"] in
  wholeScriptContent cfg ds =
    getScriptIncrementer cfg
    +:+ joinAll (imap (fun i d =>
          getSingleDialog cfg
            (JS.Num (ScriptData.initialSpan cfg + sumSpans (take i ds))) d) ds)
    +:+ getScriptFinalStatement cfg (JS.Num (ScriptData.initialSpan cfg + sumSpans ds))
  /\ (forall t d,
        safeInteger t = true ->
        getSingleDialog cfg (JS.Num t) d =
          ("execute if score @s " +:+ ScriptData.name cfg +:+ " matches "
             +:+ JS.decimal t +:+ " run tellraw @a [")
          +:+ contentPrefix (user d)
          +:+ ", {" +:+ quoted "text" +:+ ":" +:+ quoted (content d)
          +:+ ", " +:+ quoted "italic" +:+ ": true, "
          +:+ quoted "color" +:+ ":" +:+ quoted "gray"
          +:+ ", " +:+ quoted "bold" +:+ ": " +:+ quoted "false" +:+ "}]" +:+ newline)
  /\ (forall t,
        safeInteger t = true ->
        getScriptFinalStatement cfg (JS.Num t) =
          ("execute if score @s " +:+ ScriptData.name cfg +:+ " matches "
             +:+ JS.decimal t +:+ "..")
          +:+ " run scoreboard players set @s " +:+ ScriptData.name cfg
          +:+ " -1" +:+ newline)
  /\ (forall i, (i <= length ds)%nat ->
        safeInteger (ScriptData.initialSpan cfg + sumSpans (take i ds)) = true).
Proof.
  intros cfg ds. apply (generate_thresholds cfg ds). vm_compute. reflexivity.
Defined.

(** C5. With no dialogues and the configuration named X, counter 1 and
    initial span 10, the generated script is exactly the increment
    statement followed by the closing statement gated at 10; for any
    configuration the closing threshold of an empty sequence is the initial
    span, unchanged. *)
Theorem generate_empty_sequence :
  (forall (fs rs : string) (roster : list Character),
     finalScript
       (generateDialogues (mkAppState [] fs rs (ScriptData.mk "X" 1 10) roster)) =
     "scoreboard players add @s X 1" +:+ newline +:+
     "execute if score @s X matches 10.. run scoreboard players set @s X -1"
       +:+ newline)
  /\ (forall scriptData : ScriptData.t,
        wholeScriptContent scriptData [] =
        getScriptIncrementer scriptData
          +:+ getScriptFinalStatement scriptData (ScriptData.initialSpan scriptData)).
Proof.
  split.
  - intros fs rs roster. reflexivity.
  - intros scriptData. reflexivity.
Qed.

(** C7. The script written by [generateDialogues] depends on the
    configuration and the dialogue list only: two component states that
    agree on these two yield the same script, whatever their previous
    script, raw text and roster are; generating again from the resulting
    state changes nothing, and the inputs themselves are left untouched. *)
Theorem generate_deterministic (st1 st2 : AppState) :
  scriptData st1 = scriptData st2 ->
  dialogues st1 = dialogues st2 ->
  finalScript (generateDialogues st1) = finalScript (generateDialogues st2)
  /\ generateDialogues (generateDialogues st1) = generateDialogues st1
  /\ scriptData (generateDialogues st1) = scriptData st1
  /\ dialogues (generateDialogues st1) = dialogues st1.
Proof.
  intros Hcfg Hds. unfold generateDialogues, setFinalScript. simpl.
  rewrite Hcfg, Hds. repeat split; reflexivity.
Qed.

Lemma generate_deterministic_witness :
  let cfg := ScriptData.mk "S" 1 10 in
  let ds := [mkDialog alice 12 "Hello there"] in
  let st1 := mkAppState ds EmptyString "A: Hello there" cfg [alice] in
  let st2 := mkAppState ds "stale" EmptyString cfg [] in
  finalScript (generateDialogues st1) = finalScript (generateDialogues st2)
  /\ generateDialogues (generateDialogues st1) = generateDialogues st1
  /\ scriptData (generateDialogues st1) = scriptData st1
  /\ dialogues (generateDialogues st1) = dialogues st1.
Proof.
  intros cfg ds st1 st2.
  apply (generate_deterministic st1 st2); reflexivity.
Defined.

(** ** The parser: one iteration *)

Section ParseLine.
Variable roster : list Character.

Lemma alter_last {A} (f : A -> A) (l : list A) (x : A) :
  alter f (length (l ++ [x]) - 1)%nat (l ++ [x]) = l ++ [f x].
Proof.
  rewrite length_app. simpl.
  replace (length l + 1 - 1)%nat with (length l + 0)%nat by lia.
  now rewrite alter_app_r.
Qed.

Lemma parseLine_recognized st line speaker ct u :
  JS.matchSpeakerLine line = Some (speaker, ct) ->
  findUser roster (JS.toLowerCase speaker) = Some u ->
  parseLine roster st line =
  {| parsed := parsed st ++ [mkDialog u (getSpanFromLine line) ct];
     console := console st |}.
Proof. intros Hm Hu. unfold parseLine. now rewrite Hm, Hu. Qed.

Lemma parseLine_unresolved st line speaker ct :
  JS.matchSpeakerLine line = Some (speaker, ct) ->
  findUser roster (JS.toLowerCase speaker) = None ->
  parseLine roster st line =
  {| parsed := parsed st;
     console := console st ++ ["Unknown speaker: " +:+ JS.toLowerCase speaker] |}.
Proof. intros Hm Hu. unfold parseLine. now rewrite Hm, Hu. Qed.

Lemma parseLine_continuation st line ds d :
  JS.matchSpeakerLine line = None ->
  parsed st = ds ++ [d] ->
  parseLine roster st line =
  {| parsed := ds ++ [appendContent (newline +:+ line) d];
     console := console st |}.
Proof.
  intros Hm Hp. unfold parseLine. rewrite Hm, Hp, alter_last.
  rewrite length_app. simpl.
  replace (0 <? length ds + 1)%nat with true; [reflexivity |].
  symmetry. apply Nat.ltb_lt. lia.
Qed.

Lemma parseLine_orphan st line :
  JS.matchSpeakerLine line = None ->
  parsed st = [] ->
  parseLine roster st line =
  {| parsed := [];
     console := console st ++ ["Invalid dialogue line: " +:+ line] |}.
Proof.
  intros Hm Hp. unfold parseLine, consoleError. now rewrite Hm, Hp.
Qed.

(** The dialogues after a line depend on the dialogues before it only,
    not on what was logged. *)
Lemma parseLine_parsed_only st st' line :
  parsed st = parsed st' ->
  parsed (parseLine roster st line) = parsed (parseLine roster st' line).
Proof.
  intros Hp. unfold parseLine.
  destruct (JS.matchSpeakerLine line) as [[speaker ct]|].
  - destruct (findUser roster (JS.toLowerCase speaker)); simpl; now rewrite Hp.
  - rewrite Hp. destruct (0 <? length (parsed st'))%nat; simpl; now rewrite ?Hp.
Qed.

Lemma parseLines_parsed_only lines st st' :
  parsed st = parsed st' ->
  parsed (parseLines roster st lines) = parsed (parseLines roster st' lines).
Proof.
  revert st st'. induction lines as [|l lines IH]; intros st st' Hp; simpl.
  - exact Hp.
  - apply IH. now apply parseLine_parsed_only.
Qed.

Lemma parseLines_app st l1 l2 :
  parseLines roster st (l1 ++ l2) =
  parseLines roster (parseLines roster st l1) l2.
Proof. unfold parseLines. apply fold_left_app. Qed.

Lemma parseLines_cons st l ls :
  parseLines roster st (l :: ls) = parseLines roster (parseLine roster st l) ls.
Proof. reflexivity. Qed.

End ParseLine.

(** ** Speaker resolution *)

Lemma findUser_None (roster : list Character) (tag : string) :
  Forall (fun u => JS.toLowerCase (scriptPrefix u) <> tag) roster ->
  findUser roster tag = None.
Proof.
  unfold findUser. induction 1 as [|u roster Hu _ IH]; simpl; [reflexivity |].
  destruct (String.eqb_spec (JS.toLowerCase (scriptPrefix u)) tag); [contradiction | exact IH].
Qed.

Lemma findUser_Some (roster : list Character) (tag : string) (u : Character) :
  findUser roster tag = Some u ->
  In u roster /\ JS.toLowerCase (scriptPrefix u) = tag.
Proof.
  unfold findUser. intros H. apply find_some in H as [Hin Heq].
  split; [exact Hin | now apply String.eqb_eq].
Qed.

(** C6. A line that matches the speaker pattern but whose lower-cased tag
    equals no lower-cased script prefix of the roster is dropped: the
    dialogues after it are the dialogues before it, one diagnostic naming
    the tag is logged, and parsing goes on with the remaining lines, so
    that the dialogues returned for the whole text are those of the text
    with that line left out.  [parseDialogue] is a total function: no line
    has a failing branch. *)
Theorem unresolved_speaker_dropped
  (roster : list Character) (raw : string) (pre rest : list string)
  (line speaker ct : string) :
  JS.split_lines raw = pre ++ line :: rest ->
  JS.matchSpeakerLine line = Some (speaker, ct) ->
  Forall (fun u => JS.toLowerCase (scriptPrefix u) <> JS.toLowerCase speaker) roster ->
  let before := parseLines roster initialParseState pre in
  let after := parseLine roster before line in
  parsed after = parsed before
  /\ console after = console before ++ ["Unknown speaker: " +:+ JS.toLowerCase speaker]
  /\ parseDialogueLog roster raw = parseLines roster after rest
  /\ parseDialogue roster raw =
       parsed (parseLines roster initialParseState (pre ++ rest)).
Proof.
  intros Hsplit Hm Hno before after.
  pose proof (parseLine_unresolved roster before line speaker ct Hm
                (findUser_None _ _ Hno)) as Hstep.
  fold after in Hstep.
  assert (Hlog : parseDialogueLog roster raw = parseLines roster after rest).
  { unfold parseDialogueLog. simpl. rewrite Hsplit, parseLines_app.
    reflexivity. }
  repeat split.
  - now rewrite Hstep.
  - now rewrite Hstep.
  - exact Hlog.
  - unfold parseDialogue. rewrite Hlog, parseLines_app.
    apply parseLines_parsed_only. now rewrite Hstep.
Qed.

Lemma unresolved_speaker_dropped_witness :
  let roster := [alice] in
  let raw := "A: hi" +:+ newline +:+ "B: who" +:+ newline +:+ "A: bye" in
  let before := parseLines roster initialParseState ["A: hi"] in
  let after := parseLine roster before "B: who" in
  parsed after = parsed before
  /\ console after = console before ++ ["Unknown speaker: b"]
  /\ parseDialogueLog roster raw = parseLines roster after ["A: bye"]
  /\ parseDialogue roster raw =
       parsed (parseLines roster initialParseState (["A: hi"] ++ ["A: bye"])).
Proof.
  intros roster raw.
  apply (unresolved_speaker_dropped roster raw ["A: hi"] ["A: bye"] "B: who" "B" "who").
  - reflexivity.
  - reflexivity.
  - repeat constructor. vm_compute. discriminate.
Defined.

(** ** Counting words: [getSpanFromLine] *)

Section AlphaRuns.

Lemma runStartsAt_startsAfter (s : string) (i : nat) :
  runStartsAt s i = startsAfter false s i.
Proof.
  destruct i; [|reflexivity]. unfold runStartsAt, startsAfter.
  destruct (String.get 0 s); [|reflexivity].
  now rewrite !Bool.andb_true_r.
Qed.

Lemma startsAfter_S (prev : bool) (c : ascii) (s : string) (i : nat) :
  startsAfter prev (String c s) (S i) = startsAfter (JS.isAlpha c) s i.
Proof.
  destruct i as [|i]; simpl; unfold runStartsAt; simpl; reflexivity.
Qed.

Lemma filter_shift_length (f : nat -> bool) (n : nat) :
  length (List.filter f (seq 1 n)) =
  length (List.filter (fun i => f (S i)) (seq 0 n)).
Proof.
  rewrite <- seq_shift. generalize (seq 0 n) as l.
  induction l as [|x l IH]; simpl; [reflexivity |].
  destruct (f (S x)); simpl; now rewrite IH.
Qed.

Lemma filter_ext_length (f g : nat -> bool) (l : list nat) :
  (forall i, f i = g i) ->
  length (List.filter f l) = length (List.filter g l).
Proof.
  intros Hfg. induction l as [|x l IH]; simpl; [reflexivity |].
  rewrite Hfg. destruct (g x); simpl; now rewrite IH.
Qed.

(** The scanner emits one match per run start, plus the match it is
    extending. *)
Lemma scanAlpha_length (s : string) (cur : option string) :
  length (JS.scanAlpha cur s) =
  (match cur with Some _ => 1 | None => 0 end +
   length (List.filter (startsAfter (bool_decide (is_Some cur)) s)
                       (seq 0 (String.length s))))%nat.
Proof.
  revert cur. induction s as [|c s IH]; intros cur.
  - destruct cur; reflexivity.
  - assert (Htail : forall prev,
      length (List.filter (startsAfter prev (String c s)) (seq 1 (String.length s))) =
      length (List.filter (startsAfter (JS.isAlpha c) s) (seq 0 (String.length s)))).
    { intros prev. rewrite filter_shift_length. apply filter_ext_length.
      intros i. apply startsAfter_S. }
    cbn [String.length seq List.filter JS.scanAlpha startsAfter String.get].
    destruct (JS.isAlpha c) eqn:Hc.
    + rewrite IH. destruct cur; simpl; rewrite Htail; lia.
    + destruct cur; simpl; rewrite IH, Htail; simpl; lia.
Qed.

Lemma matchAlphaGlobal_length (s : string) :
  match JS.matchAlphaGlobal s with
  | Some occurences => length occurences
  | None => 0%nat
  end = maximalAlphaRuns s.
Proof.
  unfold maximalAlphaRuns.
  rewrite (filter_ext_length _ _ _ (runStartsAt_startsAfter s)).
  pose proof (scanAlpha_length s None) as H. simpl in H. rewrite <- H.
  unfold JS.matchAlphaGlobal. now destruct (JS.scanAlpha None s).
Qed.

Lemma getSpanFromLine_runs (line : string) :
  getSpanFromLine line = 4 * Z.of_nat (maximalAlphaRuns (JS.trim line)).
Proof.
  unfold getSpanFromLine. rewrite <- matchAlphaGlobal_length.
  destruct (JS.matchAlphaGlobal (JS.trim line)); lia.
Qed.

End AlphaRuns.

(** ** The speaker pattern *)

Section SpeakerPattern.

Lemma isAlpha_not_whitespace (c : ascii) :
  JS.isAlpha c = true -> JS.isWhiteSpace c = false.
Proof.
  destruct c as [[] [] [] [] [] [] [] []]; vm_compute; congruence.
Qed.

Lemma spanAlpha_spec (s a r : string) :
  JS.spanAlpha s = (a, r) ->
  s = a +:+ r /\ allAlpha a = true
  /\ match r with String c _ => JS.isAlpha c = false | EmptyString => True end.
Proof.
  revert a r. induction s as [|c s IH]; intros a r; simpl.
  - intros [= <- <-]. repeat split.
  - destruct (JS.isAlpha c) eqn:Hc.
    + destruct (JS.spanAlpha s) as [a' r'] eqn:Hs. intros [= <- <-].
      destruct (IH a' r' eq_refl) as (-> & Ha & Hr).
      repeat split; [simpl; now rewrite Hc, Ha | exact Hr].
    + intros [= <- <-]. repeat split. exact Hc.
Qed.

Lemma spanAlpha_app (a r : string) :
  allAlpha a = true ->
  match r with String c _ => JS.isAlpha c = false | EmptyString => True end ->
  JS.spanAlpha (a +:+ r) = (a, r).
Proof.
  intros Ha Hr. induction a as [|c a IH].
  - destruct r as [|c r]; simpl; [reflexivity | now rewrite Hr].
  - simpl in Ha. apply andb_prop in Ha as [Hc Ha].
    rewrite append_cons. simpl. now rewrite Hc, (IH Ha).
Qed.

(** The matcher decides the pattern: a non-empty alphabetic tag, a colon
    and a space, then text free of line terminators. *)
Lemma matchSpeakerLine_spec (line speaker ct : string) :
  JS.matchSpeakerLine line = Some (speaker, ct) <->
  speaker <> EmptyString /\ allAlpha speaker = true
  /\ JS.noLineTerminator ct = true
  /\ line = speaker +:+ ": " +:+ ct.
Proof.
  unfold JS.matchSpeakerLine. split.
  - destruct (JS.spanAlpha line) as [a r] eqn:Hs.
    apply spanAlpha_spec in Hs as (-> & Ha & _).
    destruct a as [|x a]; [discriminate |].
    destruct r as [|c1 [|c2 r]]; try discriminate.
    destruct (Ascii.eqb_spec c1 ":"); [|discriminate].
    destruct (Ascii.eqb_spec c2 " "); [|discriminate].
    destruct (JS.noLineTerminator r) eqn:Hr; [|discriminate].
    intros [= <- <-]. subst. split; [discriminate | auto].
  - intros (Hne & Ha & Hct & ->).
    rewrite (spanAlpha_app speaker (": " +:+ ct) Ha) by reflexivity.
    destruct speaker as [|x a]; [contradiction |].
    simpl. rewrite append_nil_l. now rewrite Hct.
Qed.

Lemma matchSpeakerLine_head (line speaker ct : string) :
  JS.matchSpeakerLine line = Some (speaker, ct) ->
  exists c s, line = String c s /\ JS.isAlpha c = true.
Proof.
  intros H. apply matchSpeakerLine_spec in H as (Hne & Ha & _ & ->).
  destruct speaker as [|c a]; [contradiction |].
  simpl in Ha. apply andb_prop in Ha as [Hc _].
  exists c, (a +:+ ": " +:+ ct). now rewrite append_cons.
Qed.

Lemma trim_head (c : ascii) (s : string) :
  JS.isWhiteSpace c = false ->
  exists r, JS.trim (String c s) = String c r.
Proof.
  intros Hc. unfold JS.trim. simpl. rewrite Hc. simpl. rewrite Hc.
  destruct (JS.trimEnd s); eauto.
Qed.

Lemma scanAlpha_extending (s cur : string) : JS.scanAlpha (Some cur) s <> [].
Proof.
  revert cur. induction s as [|c s IH]; intros cur; simpl; [discriminate |].
  destruct (JS.isAlpha c); [apply IH | discriminate].
Qed.

(** A line that matches the speaker pattern has at least one word. *)
Lemma getSpanFromLine_speaker (line speaker ct : string) :
  JS.matchSpeakerLine line = Some (speaker, ct) ->
  exists k, 1 <= k /\ getSpanFromLine line = 4 * k.
Proof.
  intros H. apply matchSpeakerLine_head in H as (c & s & -> & Hc).
  destruct (trim_head c s (isAlpha_not_whitespace c Hc)) as [r Hr].
  unfold getSpanFromLine, JS.matchAlphaGlobal. rewrite Hr. simpl. rewrite Hc.
  rewrite append_nil_l.
  pose proof (scanAlpha_extending r (String c EmptyString)) as Hne.
  destruct (JS.scanAlpha (Some (String c EmptyString)) r) as [|o occ];
    [contradiction |].
  exists (Z.of_nat (length (o :: occ))). simpl length. lia.
Qed.

End SpeakerPattern.

(** ** The parser: the whole loop *)

Section ParseLoop.
Variable roster : list Character.

Lemma appendContent_nil (d : Dialog) : appendContent EmptyString d = d.
Proof. destruct d. unfold appendContent. simpl. now rewrite append_nil_r. Qed.

Lemma appendContent_twice (a b : string) (d : Dialog) :
  appendContent b (appendContent a d) = appendContent (a +:+ b) d.
Proof. unfold appendContent. simpl. now rewrite append_assoc. Qed.

Lemma recognized_false_cases (line : string) :
  recognized roster line = false ->
  JS.matchSpeakerLine line = None
  \/ exists speaker ct,
       JS.matchSpeakerLine line = Some (speaker, ct)
       /\ findUser roster (JS.toLowerCase speaker) = None.
Proof.
  unfold recognized. destruct (JS.matchSpeakerLine line) as [[speaker ct]|];
    [|now left].
  intros H. right. exists speaker, ct. split; [reflexivity |].
  destruct (findUser roster (JS.toLowerCase speaker)); [|reflexivity].
  apply bool_decide_eq_false in H. destruct H. eauto.
Qed.

Lemma recognized_true_cases (line : string) :
  recognized roster line = true ->
  exists speaker ct u,
    JS.matchSpeakerLine line = Some (speaker, ct)
    /\ findUser roster (JS.toLowerCase speaker) = Some u.
Proof.
  unfold recognized. destruct (JS.matchSpeakerLine line) as [[speaker ct]|];
    [|discriminate].
  intros H. apply bool_decide_eq_true in H as [u Hu]. eauto.
Qed.

Lemma parseDialogue_lines (raw : string) :
  parseDialogue roster raw =
  parsed (parseLines roster initialParseState (JS.split_lines raw)).
Proof. reflexivity. Qed.

(** Once a dialogue has been pushed, the entries before it are frozen and
    the dialogue itself can only grow at the end of its content. *)
Lemma parseLines_stable (lines : list string) (st : ParseState)
  (ds : list Dialog) (d : Dialog) :
  parsed st = ds ++ [d] ->
  exists extra tail,
    parsed (parseLines roster st lines) = ds ++ appendContent extra d :: tail.
Proof.
  revert st ds d. induction lines as [|l lines IH]; intros st ds d Hp.
  - exists EmptyString, []. simpl. now rewrite appendContent_nil.
  - rewrite parseLines_cons.
    destruct (JS.matchSpeakerLine l) as [[speaker ct]|] eqn:Hm.
    + destruct (findUser roster (JS.toLowerCase speaker)) as [u|] eqn:Hu.
      * rewrite (parseLine_recognized roster st l speaker ct u Hm Hu).
        edestruct (IH (mkParseState (parsed st ++ [mkDialog u (getSpanFromLine l) ct])
                                    (console st))
                      (ds ++ [d]) (mkDialog u (getSpanFromLine l) ct))
          as (extra & tail & Heq); [simpl; now rewrite Hp |].
        exists EmptyString, (appendContent extra (mkDialog u (getSpanFromLine l) ct) :: tail).
        rewrite Heq, appendContent_nil, <- app_assoc. reflexivity.
      * rewrite (parseLine_unresolved roster st l speaker ct Hm Hu).
        apply IH. exact Hp.
    + rewrite (parseLine_continuation roster st l ds d Hm Hp).
      edestruct (IH (mkParseState (ds ++ [appendContent (newline +:+ l) d]) (console st))
                    ds (appendContent (newline +:+ l) d))
        as (extra & tail & Heq); [reflexivity |].
      exists ((newline +:+ l) +:+ extra), tail.
      now rewrite Heq, appendContent_twice.
Qed.

(** A block of lines without a recognized speaker line only extends the
    last dialogue, by its lines that do not match the pattern. *)
Lemma parseLines_block (mid : list string) (st : ParseState)
  (ds : list Dialog) (d : Dialog) :
  Forall (fun l => recognized roster l = false) mid ->
  parsed st = ds ++ [d] ->
  parsed (parseLines roster st mid) =
  ds ++ [appendContent
           (joinAll (map (fun l => newline +:+ l) (List.filter isContinuation mid))) d].
Proof.
  intros Hmid. revert st d. induction Hmid as [|l mid Hl _ IH]; intros st d Hp.
  - simpl. now rewrite appendContent_nil.
  - rewrite parseLines_cons. unfold isContinuation in *. simpl.
    destruct (recognized_false_cases l Hl) as [Hm | (speaker & ct & Hm & Hu)].
    + rewrite (parseLine_continuation roster st l ds d Hm Hp).
      erewrite (IH _ (appendContent (newline +:+ l) d)) by reflexivity.
      rewrite appendContent_twice, Hm, bool_decide_true by reflexivity.
      reflexivity.
    + rewrite (parseLine_unresolved roster st l speaker ct Hm Hu).
      erewrite (IH _ d) by exact Hp.
      rewrite Hm, bool_decide_false by discriminate. reflexivity.
Qed.

End ParseLoop.

(** ** Where each dialogue comes from *)

Section Provenance.
Variable roster : list Character.

Lemma producedFrom_appendContent (line extra : string) (d : Dialog) :
  producedFrom roster line d ->
  producedFrom roster line (appendContent extra d).
Proof.
  intros (speaker & ct & e & Hm & Hu & Hs & Hc).
  exists speaker, ct, (e +:+ extra). simpl.
  now rewrite Hc, append_assoc.
Qed.

(** The invariant of the loop of [parseDialogue]: the dialogues built so
    far stem, in order, from the recognized speaker lines read so far. *)
Lemma parseLines_provenance (lines : list string) :
  exists idxs : list nat,
    StronglySorted lt idxs
    /\ Forall2 (fun i d => exists line,
                  lines !! i = Some line /\ producedFrom roster line d)
               idxs (parsed (parseLines roster initialParseState lines))
    /\ (forall i line,
          lines !! i = Some line -> recognized roster line = true -> i ∈ idxs).
Proof.
  induction lines as [|l lines IH] using rev_ind.
  - exists []. repeat split; [constructor | constructor |].
    intros i line Hi. now rewrite lookup_nil in Hi.
  - destruct IH as (idxs & Hsorted & Hall & Hcomplete).
    rewrite parseLines_app. simpl.
    set (st := parseLines roster initialParseState lines) in *.
    assert (Hall' : Forall2 (fun i d => exists line,
               (lines ++ [l]) !! i = Some line /\ producedFrom roster line d)
               idxs (parsed st)).
    { eapply Forall2_impl; [exact Hall |].
      intros i d (line & Hi & Hp). exists line. split; [|exact Hp].
      now apply lookup_app_l_Some. }
    assert (Hlt : forall i, i ∈ idxs -> (i < length lines)%nat).
    { intros i Hi. apply list_elem_of_lookup in Hi as [k Hk].
      destruct (Forall2_lookup_l _ _ _ _ _ Hall Hk) as (d & _ & line & Hline & _).
      now apply lookup_lt_Some in Hline. }
    assert (Hold : forall i line,
               (lines ++ [l]) !! i = Some line -> i <> length lines ->
               lines !! i = Some line).
    { intros i line Hi Hne. apply lookup_app_Some in Hi as [Hi | [Hge Hi]];
        [exact Hi |].
      apply lookup_lt_Some in Hi as Hlen. simpl in Hlen. lia. }
    assert (Hnew : forall line,
               (lines ++ [l]) !! length lines = Some line -> line = l).
    { intros line Hi. rewrite list_lookup_middle in Hi by reflexivity.
      congruence. }
    destruct (recognized roster l) eqn:Hrec.
    + destruct (recognized_true_cases roster l Hrec) as (speaker & ct & u & Hm & Hu).
      rewrite (parseLine_recognized roster st l speaker ct u Hm Hu). simpl.
      exists (idxs ++ [length lines]). repeat split.
      * apply StronglySorted_app_2; [| exact Hsorted | repeat constructor].
        intros x1 x2 H1 H2. apply list_elem_of_singleton in H2 as ->. now apply Hlt.
      * apply Forall2_app; [exact Hall' |]. repeat constructor.
        exists l. split; [now apply list_lookup_middle |].
        exists speaker, ct, EmptyString. simpl. now rewrite append_nil_r.
      * intros i line Hi Hr. apply elem_of_app.
        destruct (decide (i = length lines)) as [-> | Hne].
        -- right. apply list_elem_of_singleton. reflexivity.
        -- left. eauto.
    + assert (Hcomplete' : forall i line,
               (lines ++ [l]) !! i = Some line ->
               recognized roster line = true -> i ∈ idxs).
      { intros i line Hi Hr. destruct (decide (i = length lines)) as [-> | Hne].
        - apply Hnew in Hi as ->. congruence.
        - eauto. }
      exists idxs. repeat split; [exact Hsorted | | exact Hcomplete'].
      destruct (recognized_false_cases roster l Hrec)
        as [Hm | (speaker & ct & Hm & Hu)].
      * unfold parseLine. rewrite Hm.
        destruct (0 <? length (parsed st))%nat; simpl; [|exact Hall'].
        apply Forall2_alter_r; [exact Hall' |].
        intros i d _ _ (line & Hi & Hp). exists line. split; [exact Hi |].
        now apply producedFrom_appendContent.
      * rewrite (parseLine_unresolved roster st l speaker ct Hm Hu). exact Hall'.
Qed.

End Provenance.

(** C9. Parsing preserves order: the returned dialogues stem from source
    lines at strictly increasing positions of the split text.  Each
    dialogue carries the user, the span and the leading content of its own
    speaker line, and every recognized speaker line is the source of one of
    them. *)
Theorem parse_order_preserving (roster : list Character) (raw : string) :
  exists idxs : list nat,
    StronglySorted lt idxs
    /\ Forall2 (fun i d => exists line,
                  JS.split_lines raw !! i = Some line /\ producedFrom roster line d)
               idxs (parseDialogue roster raw)
    /\ (forall i line,
          JS.split_lines raw !! i = Some line ->
          recognized roster line = true -> i ∈ idxs).
Proof.
  unfold parseDialogue, parseDialogueLog.
  apply (parseLines_provenance roster (JS.split_lines raw)).
Qed.

(** C10. Every dialogue returned by the parser has a span that is a
    positive multiple of 4: the line it stems from matches the speaker
    pattern, so its trimmed text holds at least the alphabetic run of the
    tag. *)
Theorem parsed_span_positive_multiple_of_4
  (roster : list Character) (raw : string) (d : Dialog) :
  d ∈ parseDialogue roster raw ->
  exists k, 1 <= k /\ span d = 4 * k /\ 4 <= span d.
Proof.
  intros Hd. apply list_elem_of_lookup in Hd as [n Hn].
  destruct (parseLines_provenance roster (JS.split_lines raw))
    as (idxs & _ & Hall & _).
  fold (parseDialogueLog roster raw) in Hall. fold (parseDialogue roster raw) in Hall.
  destruct (Forall2_lookup_r _ _ _ _ _ Hall Hn)
    as (i & _ & line & _ & speaker & ct & extra & Hm & _ & Hs & _).
  destruct (getSpanFromLine_speaker line speaker ct Hm) as (k & Hk & Hspan).
  exists k. rewrite Hs, Hspan. lia.
Qed.

Lemma parsed_span_positive_multiple_of_4_witness :
  exists k, 1 <= k /\ span (mkDialog alice 4 "...") = 4 * k
            /\ 4 <= span (mkDialog alice 4 "...").
Proof.
  apply (parsed_span_positive_multiple_of_4 [alice] "A: ..." (mkDialog alice 4 "...")).
  vm_compute. constructor.
Defined.

(** C2. When the parser recognizes a line as a speaker line, the dialogue
    it pushes for that line, at the position reached so far, keeps to the
    end a span of 4 times the number of maximal alphabetic runs of the
    whole trimmed line, speaker tag included. *)
Theorem speaker_line_span
  (roster : list Character) (raw : string) (pre rest : list string)
  (line speaker ct : string) (u : Character) :
  JS.split_lines raw = pre ++ line :: rest ->
  JS.matchSpeakerLine line = Some (speaker, ct) ->
  findUser roster (JS.toLowerCase speaker) = Some u ->
  exists d,
    parseDialogue roster raw
      !! length (parsed (parseLines roster initialParseState pre)) = Some d
    /\ user d = u
    /\ span d = 4 * Z.of_nat (maximalAlphaRuns (JS.trim line))
    /\ getSpanFromLine line = 4 * Z.of_nat (maximalAlphaRuns (JS.trim line)).
Proof.
  intros Hsplit Hm Hu.
  rewrite parseDialogue_lines, Hsplit, parseLines_app, parseLines_cons.
  set (before := parseLines roster initialParseState pre).
  rewrite (parseLine_recognized roster before line speaker ct u Hm Hu).
  edestruct (parseLines_stable roster rest
               (mkParseState (parsed before ++ [mkDialog u (getSpanFromLine line) ct])
                             (console before))
               (parsed before) (mkDialog u (getSpanFromLine line) ct))
    as (extra & tail & Heq); [reflexivity |].
  exists (appendContent extra (mkDialog u (getSpanFromLine line) ct)).
  rewrite Heq. split; [now apply list_lookup_middle |].
  simpl. repeat split; apply getSpanFromLine_runs.
Qed.

Lemma speaker_line_span_witness :
  exists d,
    parseDialogue [alice] ("  oops" +:+ newline +:+ "A: Hello there, you" +:+ newline +:+ "more")
      !! length (parsed (parseLines [alice] initialParseState ["  oops"])) = Some d
    /\ user d = alice
    /\ span d = 4 * Z.of_nat (maximalAlphaRuns (JS.trim "A: Hello there, you"))
    /\ getSpanFromLine "A: Hello there, you" =
         4 * Z.of_nat (maximalAlphaRuns (JS.trim "A: Hello there, you")).
Proof.
  apply (speaker_line_span [alice] _ ["  oops"] ["more"] "A: Hello there, you"
           "A" "Hello there, you" alice); reflexivity.
Defined.

(** C3, as stated, fails: the span of the parsed line is not 8. *)
Lemma parse_alice_span_is_not_8 :
  ~ exists d,
      parseDialogue [alice] "A: Hello there" = [d]
      /\ user d = alice /\ span d = 8 /\ content d = "Hello there".
Proof.
  intros (d & Hd & _ & Hspan & _). vm_compute in Hd.
  injection Hd as <-. discriminate Hspan.
Qed.

(** C3, amended. With the roster made of Alice (script prefix A), the
    text [A: Hello there] parses to exactly one dialogue whose user is
    Alice, whose content is [Hello there] and whose span is 12: the three
    words A, Hello and there, times 4. *)
Theorem parse_alice :
  parseDialogue [mkCharacter "Alice" "A" "Alice: "] "A: Hello there" =
  [mkDialog (mkCharacter "Alice" "A" "Alice: ") 12 "Hello there"].
Proof. reflexivity. Qed.

(** C4, as stated, fails.  In the text below the recognized speaker line
    [A: hi] is followed immediately by exactly one line that does not match
    the speaker pattern, [foo]; the next line matches the pattern.  Yet the
    dialogue of [A: hi] does not end up with [hi], a newline and [foo]: the
    tag B is unresolved, its line is dropped, and [bar] is appended to the
    dialogue of [A: hi] as well. *)
Lemma continuation_after_unresolved_speaker :
  let raw := "A: hi" +:+ newline +:+ "foo" +:+ newline
             +:+ "B: x" +:+ newline +:+ "bar" in
  JS.split_lines raw = ["A: hi"; "foo"; "B: x"; "bar"]
  /\ JS.matchSpeakerLine "A: hi" = Some ("A", "hi")
  /\ findUser [alice] (JS.toLowerCase "A") = Some alice
  /\ JS.matchSpeakerLine "foo" = None
  /\ JS.matchSpeakerLine "B: x" = Some ("B", "x")
  /\ parseDialogue [alice] raw =
       [mkDialog alice 8 ("hi" +:+ newline +:+ "foo" +:+ newline +:+ "bar")]
  /\ content <$> parseDialogue [alice] raw !! 0%nat
       <> Some ("hi" +:+ newline +:+ "foo").
Proof.
  repeat split; try reflexivity. vm_compute. discriminate.
Qed.

(** C4, amended. Let a recognized speaker line L be followed by lines none
    of which is a recognized speaker line, up to the next recognized
    speaker line or the end of the text.  The dialogue pushed for L ends up
    with the content of L followed by, for each of those lines that does
    not match the speaker pattern, in order, a newline and that raw line;
    the lines among them that match the pattern with an unresolved tag are
    dropped and do not end the block.  None of those lines creates a
    dialogue: after them the list is as long as right after L. *)
Theorem continuation_block
  (roster : list Character) (raw : string) (pre mid rest : list string)
  (L speaker ct : string) (u : Character) :
  JS.split_lines raw = pre ++ L :: mid ++ rest ->
  JS.matchSpeakerLine L = Some (speaker, ct) ->
  findUser roster (JS.toLowerCase speaker) = Some u ->
  Forall (fun l => recognized roster l = false) mid ->
  match rest with [] => True | r :: _ => recognized roster r = true end ->
  let k := length (parsed (parseLines roster initialParseState pre)) in
  parseDialogue roster raw !! k =
    Some (mkDialog u (getSpanFromLine L)
            (ct +:+ joinAll (map (fun l => newline +:+ l)
                                 (List.filter isContinuation mid))))
  /\ length (parsed (parseLines roster initialParseState (pre ++ L :: mid))) = S k.
Proof.
  intros Hsplit Hm Hu Hmid Hrest k.
  set (before := parseLines roster initialParseState pre) in *.
  set (dL := mkDialog u (getSpanFromLine L)
               (ct +:+ joinAll (map (fun l => newline +:+ l)
                                    (List.filter isContinuation mid)))).
  assert (Hblock : parsed (parseLines roster initialParseState (pre ++ L :: mid)) =
                   parsed before ++ [dL]).
  { rewrite parseLines_app, parseLines_cons. fold before.
    rewrite (parseLine_recognized roster before L speaker ct u Hm Hu).
    rewrite (parseLines_block roster mid
               (mkParseState (parsed before ++ [mkDialog u (getSpanFromLine L) ct])
                             (console before))
               (parsed before) (mkDialog u (getSpanFromLine L) ct) Hmid eq_refl).
    reflexivity. }
  split.
  - rewrite parseDialogue_lines, Hsplit.
    replace (pre ++ L :: mid ++ rest) with ((pre ++ L :: mid) ++ rest)
      by (rewrite <- app_assoc; reflexivity).
    rewrite parseLines_app.
    set (st := parseLines roster initialParseState (pre ++ L :: mid)) in *.
    destruct rest as [|r rest].
    + simpl. rewrite Hblock. now apply list_lookup_middle.
    + destruct (recognized_true_cases roster r Hrest) as (sp & c & v & Hmr & Hur).
      rewrite parseLines_cons.
      rewrite (parseLine_recognized roster st r sp c v Hmr Hur).
      edestruct (parseLines_stable roster rest
                   (mkParseState (parsed st ++ [mkDialog v (getSpanFromLine r) c])
                                 (console st))
                   (parsed st) (mkDialog v (getSpanFromLine r) c))
        as (extra & tail & Heq); [reflexivity |].
      rewrite Heq, Hblock, <- app_assoc. now apply list_lookup_middle.
  - rewrite Hblock, length_app. simpl. unfold k. lia.
Qed.

Lemma continuation_block_witness :
  let raw := "A: hi" +:+ newline +:+ "foo" +:+ newline +:+ "B: x" +:+ newline
             +:+ "bar" +:+ newline +:+ "A: bye" in
  parseDialogue [alice] raw !! 0%nat =
    Some (mkDialog alice 8 ("hi" +:+ newline +:+ "foo" +:+ newline +:+ "bar"))
  /\ length (parsed (parseLines [alice] initialParseState
                       ([] ++ "A: hi" :: ["foo"; "B: x"; "bar"]))) = 1%nat.
Proof.
  intros raw.
  apply (continuation_block [alice] raw [] ["foo"; "B: x"; "bar"] ["A: bye"]
           "A: hi" "A" "hi" alice).
  - reflexivity.
  - reflexivity.
  - reflexivity.
  - repeat constructor.
  - reflexivity.
Defined.

(** ** Letter case *)

Section LetterCase.





End LetterCase.



(** * Further properties of the code *)

(** ** Splitting into lines *)

Section SplitLines.

Lemma split_lines_nonempty (s : string) : JS.split_lines s <> [].
Proof.
  destruct s as [|c s]; simpl; [discriminate |].
  destruct (Ascii.eqb c JS.LF); [discriminate |].
  destruct (JS.split_lines s); discriminate.
Qed.

Lemma joinLines_cons_char (c : ascii) (l : string) (ls : list string) :
  joinLines (String c l :: ls) = String c (joinLines (l :: ls)).
Proof. destruct ls; reflexivity. Qed.

Lemma joinLines_split (s : string) : joinLines (JS.split_lines s) = s.
Proof.
  induction s as [|c s IH]; [reflexivity |]. simpl.
  destruct (Ascii.eqb_spec c JS.LF) as [-> | Hc].
  - pose proof (split_lines_nonempty s) as Hne.
    destruct (JS.split_lines s) as [|l ls]; [contradiction |].
    change (joinLines (EmptyString :: l :: ls))
      with (EmptyString +:+ newline +:+ joinLines (l :: ls)).
    rewrite IH. reflexivity.
  - pose proof (split_lines_nonempty s) as Hne.
    destruct (JS.split_lines s) as [|l ls]; [contradiction |].
    now rewrite joinLines_cons_char, IH.
Qed.

Lemma split_lines_no_LF (s : string) :
  Forall (fun l => containsChar JS.LF l = false) (JS.split_lines s).
Proof.
  induction s as [|c s IH]; simpl; [repeat constructor |].
  destruct (Ascii.eqb c JS.LF) eqn:Hc.
  - constructor; [reflexivity | exact IH].
  - destruct (JS.split_lines s) as [|l ls]; [repeat constructor; simpl; now rewrite Hc |].
    inversion IH as [|? ? Hl Hls]; subst. constructor; [|exact Hls].
    simpl. now rewrite Hc, Hl.
Qed.

Lemma split_lines_no_LF_line (l : string) :
  containsChar JS.LF l = false -> JS.split_lines l = [l].
Proof.
  induction l as [|c l IH]; simpl; [reflexivity |].
  intros H. apply Bool.orb_false_iff in H as [Hc Hl].
  now rewrite Hc, (IH Hl).
Qed.

Lemma split_lines_app (a b : string) :
  JS.split_lines (a +:+ newline +:+ b) = JS.split_lines a ++ JS.split_lines b.
Proof.
  induction a as [|c a IH]; [reflexivity |].
  rewrite append_cons. simpl. rewrite IH.
  destruct (Ascii.eqb c JS.LF); [reflexivity |].
  pose proof (split_lines_nonempty a) as Hne.
  destruct (JS.split_lines a) as [|l ls]; [contradiction | reflexivity].
Qed.

Lemma split_lines_join (ls : list string) :
  ls <> [] ->
  Forall (fun l => containsChar JS.LF l = false) ls ->
  JS.split_lines (joinLines ls) = ls.
Proof.
  intros Hne Hall. induction Hall as [|l ls Hl Hls IH]; [contradiction |].
  destruct ls as [|l' ls'].
  - simpl. now apply split_lines_no_LF_line.
  - change (joinLines (l :: l' :: ls')) with (l +:+ newline +:+ joinLines (l' :: ls')).
    rewrite split_lines_app, IH by discriminate.
    now rewrite (split_lines_no_LF_line l Hl).
Qed.

End SplitLines.

(** X1. Splitting a text at its line feeds loses nothing: the pieces
    contain no line feed, there is at least one piece, and joining them
    with line feeds gives the text back. *)
Theorem split_lines_round_trip (s : string) :
  joinLines (JS.split_lines s) = s
  /\ Forall (fun l => containsChar JS.LF l = false) (JS.split_lines s)
  /\ (1 <= length (JS.split_lines s))%nat.
Proof.
  split; [apply joinLines_split | split; [apply split_lines_no_LF |]].
  pose proof (split_lines_nonempty s). destruct (JS.split_lines s); simpl; [contradiction | lia].
Qed.

(** X2. Conversely, any non-empty list of pieces free of line feeds is
    what the split of their join returns. *)
Theorem join_lines_round_trip (ls : list string) :
  ls <> [] ->
  Forall (fun l => containsChar JS.LF l = false) ls ->
  JS.split_lines (joinLines ls) = ls.
Proof. apply split_lines_join. Qed.

Lemma join_lines_round_trip_witness :
  JS.split_lines (joinLines ["A: hi"; EmptyString; "more"]) =
  ["A: hi"; EmptyString; "more"].
Proof.
  apply (join_lines_round_trip ["A: hi"; EmptyString; "more"]).
  - discriminate.
  - repeat constructor.
Defined.

(** X3. The lines of two texts put together with a line feed are the
    lines of the first followed by the lines of the second. *)
Theorem split_lines_concat (a b : string) :
  JS.split_lines (a +:+ newline +:+ b) = JS.split_lines a ++ JS.split_lines b.
Proof. apply split_lines_app. Qed.

(** ** Lines that produce no dialogue *)

Section Dropped.
Variable roster : list Character.

Lemma parseLine_dropped_empty (st : ParseState) (line : string) :
  recognized roster line = false ->
  parsed st = [] ->
  parseLine roster st line =
  {| parsed := []; console := console st ++ [diagnostic line] |}.
Proof.
  intros Hrec Hp. unfold diagnostic.
  destruct (recognized_false_cases roster line Hrec) as [Hm | (sp & ct & Hm & Hu)].
  - rewrite Hm. now apply parseLine_orphan.
  - rewrite Hm, (parseLine_unresolved roster st line sp ct Hm Hu). now rewrite Hp.
Qed.

Lemma parseLines_dropped_empty (lines : list string) (st : ParseState) :
  Forall (fun l => recognized roster l = false) lines ->
  parsed st = [] ->
  parseLines roster st lines =
  {| parsed := []; console := console st ++ map diagnostic lines |}.
Proof.
  intros Hall. revert st. induction Hall as [|l lines Hl _ IH]; intros st Hp.
  - simpl. rewrite app_nil_r. destruct st; simpl in *. now subst.
  - rewrite parseLines_cons, (parseLine_dropped_empty st l Hl Hp).
    rewrite IH by reflexivity. simpl. now rewrite <- app_assoc.
Qed.

(** What is logged does not influence what is logged next: the messages of
    a run are those present at its start followed by those of the same run
    started with an empty log. *)
Lemma parseLine_console (st : ParseState) (line : string) :
  console (parseLine roster st line) =
  console st ++ console (parseLine roster (mkParseState (parsed st) []) line).
Proof.
  unfold parseLine. destruct (JS.matchSpeakerLine line) as [[sp ct]|]; simpl.
  - destruct (findUser roster (JS.toLowerCase sp)); simpl; now rewrite ?app_nil_r.
  - destruct (0 <? length (parsed st))%nat; simpl; now rewrite ?app_nil_r.
Qed.

Lemma parseLines_console (lines : list string) (st : ParseState) :
  console (parseLines roster st lines) =
  console st ++ console (parseLines roster (mkParseState (parsed st) []) lines).
Proof.
  revert st. induction lines as [|l lines IH]; intros st.
  - simpl. now rewrite app_nil_r.
  - rewrite !parseLines_cons, IH, parseLine_console, <- app_assoc. f_equal.
    rewrite (IH (parseLine roster {| parsed := parsed st; console := [] |} l)).
    do 4 f_equal. symmetry. now apply parseLine_parsed_only.
Qed.

Lemma parseDialogueLog_lines (raw : string) :
  parseDialogueLog roster raw =
  parseLines roster initialParseState (JS.split_lines raw).
Proof. reflexivity. Qed.

End Dropped.

(** X4. A text none of whose lines is a recognized speaker line parses to
    no dialogue at all, and exactly one diagnostic is logged per line, in
    the order of the lines: the unknown speaker for a line that matches the
    pattern, the invalid line otherwise. *)
Theorem no_recognized_line_no_dialogue (roster : list Character) (raw : string) :
  Forall (fun l => recognized roster l = false) (JS.split_lines raw) ->
  parseDialogue roster raw = []
  /\ console (parseDialogueLog roster raw) = map diagnostic (JS.split_lines raw).
Proof.
  intros Hall. unfold parseDialogue. rewrite parseDialogueLog_lines.
  rewrite (parseLines_dropped_empty roster _ initialParseState Hall eq_refl).
  split; reflexivity.
Qed.

Lemma no_recognized_line_no_dialogue_witness :
  parseDialogue [alice] ("hello" +:+ newline +:+ "B: who" +:+ newline) = []
  /\ console (parseDialogueLog [alice] ("hello" +:+ newline +:+ "B: who" +:+ newline)) =
     map diagnostic (JS.split_lines ("hello" +:+ newline +:+ "B: who" +:+ newline)).
Proof.
  apply (no_recognized_line_no_dialogue [alice]).
  vm_compute. repeat constructor.
Defined.

(** X5. Lines before the first recognized speaker line never reach the
    result: the dialogues of a text are those of the text without such
    leading lines, and the log starts with one diagnostic for each of
    them. *)
Theorem leading_lines_dropped
  (roster : list Character) (raw : string) (pre rest : list string) :
  JS.split_lines raw = pre ++ rest ->
  Forall (fun l => recognized roster l = false) pre ->
  parseDialogue roster raw = parsed (parseLines roster initialParseState rest)
  /\ console (parseDialogueLog roster raw) =
     map diagnostic pre ++ console (parseLines roster initialParseState rest).
Proof.
  intros Hsplit Hpre. unfold parseDialogue. rewrite parseDialogueLog_lines.
  rewrite Hsplit, parseLines_app.
  rewrite (parseLines_dropped_empty roster pre initialParseState Hpre eq_refl). simpl.
  split.
  - now apply parseLines_parsed_only.
  - now rewrite parseLines_console.
Qed.

Lemma leading_lines_dropped_witness :
  parseDialogue [alice] ("intro" +:+ newline +:+ "A: hi") =
    parsed (parseLines [alice] initialParseState ["A: hi"])
  /\ console (parseDialogueLog [alice] ("intro" +:+ newline +:+ "A: hi")) =
     map diagnostic ["intro"] ++ console (parseLines [alice] initialParseState ["A: hi"]).
Proof.
  apply (leading_lines_dropped [alice] _ ["intro"] ["A: hi"]).
  - reflexivity.
  - repeat constructor.
Defined.

(** ** The roster *)

Section Roster.

Lemma toLowerCase_nonempty (s : string) :
  s <> EmptyString -> JS.toLowerCase s <> EmptyString.
Proof. destruct s; [contradiction | discriminate]. Qed.

Lemma matchSpeakerLine_tag_nonempty (line speaker ct : string) :
  JS.matchSpeakerLine line = Some (speaker, ct) ->
  JS.toLowerCase speaker <> EmptyString.
Proof.
  intros H. apply matchSpeakerLine_spec in H as (Hne & _).
  now apply toLowerCase_nonempty.
Qed.

Lemma findUser_skip_blank (r1 r2 : list Character) (u : Character) (tag : string) :
  scriptPrefix u = EmptyString -> tag <> EmptyString ->
  findUser (r1 ++ u :: r2) tag = findUser (r1 ++ r2) tag.
Proof.
  intros Hu Htag. unfold findUser. induction r1 as [|x r1 IH]; simpl.
  - rewrite Hu. simpl. destruct tag; [contradiction | reflexivity].
  - now rewrite IH.
Qed.

(** Two rosters that resolve every tag alike parse alike. *)
Lemma parseLine_roster_ext (r r' : list Character) (st : ParseState) (line : string) :
  (forall tag, tag <> EmptyString -> findUser r tag = findUser r' tag) ->
  parseLine r st line = parseLine r' st line.
Proof.
  intros Hext. unfold parseLine.
  destruct (JS.matchSpeakerLine line) as [[speaker ct]|] eqn:Hm; [|reflexivity].
  now rewrite (Hext _ (matchSpeakerLine_tag_nonempty line speaker ct Hm)).
Qed.

Lemma parseLines_roster_ext (r r' : list Character) (lines : list string) (st : ParseState) :
  (forall tag, tag <> EmptyString -> findUser r tag = findUser r' tag) ->
  parseLines r st lines = parseLines r' st lines.
Proof.
  intros Hext. revert st. induction lines as [|l lines IH]; intros st; [reflexivity |].
  now rewrite !parseLines_cons, (parseLine_roster_ext r r' st l Hext), IH.
Qed.

Lemma blank_roster_unrecognized (roster : list Character) (line : string) :
  Forall (fun u => scriptPrefix u = EmptyString) roster ->
  recognized roster line = false.
Proof.
  intros Hblank. unfold recognized.
  destruct (JS.matchSpeakerLine line) as [[speaker ct]|] eqn:Hm; [|reflexivity].
  rewrite findUser_None; [now apply bool_decide_eq_false; intros [? ?] |].
  eapply Forall_impl; [exact Hblank |]. intros u Hu. simpl in Hu. rewrite Hu.
  intros Heq. symmetry in Heq.
  now apply (matchSpeakerLine_tag_nonempty line speaker ct Hm).
Qed.

End Roster.

(** X6. A roster entry with an empty script prefix, such as the one the
    button [New user] adds, is never selected: with or without it, at any
    position of the roster, every text parses to the same dialogues and
    the same log.  In particular [newUser] does not change what a text
    parses to. *)
Theorem blank_prefix_entry_ignored
  (r1 r2 : list Character) (u : Character) (raw : string) :
  scriptPrefix u = EmptyString ->
  parseDialogueLog (r1 ++ u :: r2) raw = parseDialogueLog (r1 ++ r2) raw
  /\ (forall st,
        parseDialogueLog (usersFields (newUser st)) raw =
        parseDialogueLog (usersFields st) raw).
Proof.
  intros Hu. split.
  - rewrite !parseDialogueLog_lines. apply parseLines_roster_ext.
    intros tag Htag. now apply findUser_skip_blank.
  - intros st. simpl. rewrite !parseDialogueLog_lines.
    rewrite <- (app_nil_r (usersFields st)) at 2.
    apply parseLines_roster_ext. intros tag Htag.
    now apply findUser_skip_blank.
Qed.

Lemma blank_prefix_entry_ignored_witness :
  parseDialogueLog ([alice] ++ mkCharacter "Bob" EmptyString "Bob: " :: []) "A: hi" =
  parseDialogueLog ([alice] ++ []) "A: hi"
  /\ (forall st,
        parseDialogueLog (usersFields (newUser st)) "A: hi" =
        parseDialogueLog (usersFields st) "A: hi").
Proof.
  apply (blank_prefix_entry_ignored [alice] [] (mkCharacter "Bob" EmptyString "Bob: ") "A: hi").
  reflexivity.
Defined.

(** X7. While every roster entry has an empty script prefix, as in the
    initial state of the form, no text parses to any dialogue; each line
    is answered by one diagnostic. *)
Theorem blank_roster_parses_nothing (roster : list Character) (raw : string) :
  Forall (fun u => scriptPrefix u = EmptyString) roster ->
  parseDialogue roster raw = []
  /\ console (parseDialogueLog roster raw) = map diagnostic (JS.split_lines raw).
Proof.
  intros Hblank. unfold parseDialogue. rewrite parseDialogueLog_lines.
  rewrite (parseLines_dropped_empty roster _ initialParseState); [split; reflexivity | | reflexivity].
  apply Forall_forall. intros l _. now apply blank_roster_unrecognized.
Qed.

Lemma blank_roster_parses_nothing_witness :
  parseDialogue [blankUser] ("A: hi" +:+ newline +:+ "there") = []
  /\ console (parseDialogueLog [blankUser] ("A: hi" +:+ newline +:+ "there")) =
     map diagnostic (JS.split_lines ("A: hi" +:+ newline +:+ "there")).
Proof.
  apply (blank_roster_parses_nothing [blankUser]).
  repeat constructor.
Defined.

(** ** Counting dialogues and diagnostics *)

Section Counting.
Variable roster : list Character.

Lemma parseLine_counts (st : ParseState) (line : string) :
  length (parsed (parseLine roster st line)) =
    (length (parsed st) + (if recognized roster line then 1 else 0))%nat
  /\ (length (console (parseLine roster st line)) <=
      length (console st) + (if recognized roster line then 0 else 1))%nat.
Proof.
  unfold parseLine, recognized.
  destruct (JS.matchSpeakerLine line) as [[speaker ct]|].
  - destruct (findUser roster (JS.toLowerCase speaker)) as [u|]; simpl.
    + rewrite length_app. simpl. lia.
    + rewrite length_app. simpl. lia.
  - destruct (0 <? length (parsed st))%nat; simpl.
    + rewrite length_alter. lia.
    + rewrite length_app. simpl. lia.
Qed.

Lemma parseLines_counts (lines : list string) (st : ParseState) :
  length (parsed (parseLines roster st lines)) =
    (length (parsed st) + length (List.filter (recognized roster) lines))%nat
  /\ (length (parsed (parseLines roster st lines))
      + length (console (parseLines roster st lines)) <=
      length (parsed st) + length (console st) + length lines)%nat.
Proof.
  revert st. induction lines as [|l lines IH]; intros st.
  - simpl. lia.
  - rewrite parseLines_cons.
    destruct (IH (parseLine roster st l)) as [IH1 IH2].
    destruct (parseLine_counts st l) as [H1 H2].
    simpl. destruct (recognized roster l); simpl; lia.
Qed.

End Counting.

(** X8. The parser returns exactly one dialogue per recognized speaker
    line, and every line yields at most one thing: the dialogues and the
    diagnostics together are never more than the lines of the text. *)
Theorem one_dialogue_per_recognized_line (roster : list Character) (raw : string) :
  length (parseDialogue roster raw) =
    length (List.filter (recognized roster) (JS.split_lines raw))
  /\ (length (parseDialogue roster raw)
      + length (console (parseDialogueLog roster raw)) <=
      length (JS.split_lines raw))%nat.
Proof.
  unfold parseDialogue. rewrite parseDialogueLog_lines.
  destruct (parseLines_counts roster (JS.split_lines raw) initialParseState) as [H1 H2].
  simpl in *. split; [exact H1 | lia].
Qed.

(** ** The users of the parsed dialogues *)

Lemma parsed_user_first_match (roster : list Character) (raw : string) :
  Forall (fun d => In (user d) roster
                   /\ findUser roster (JS.toLowerCase (scriptPrefix (user d)))
                      = Some (user d))
         (parseDialogue roster raw).
Proof.
  destruct (parseLines_provenance roster (JS.split_lines raw)) as (idxs & _ & Hall & _).
  fold (parseDialogueLog roster raw) in Hall. fold (parseDialogue roster raw) in Hall.
  apply Forall_forall. intros d Hd.
  apply list_elem_of_lookup in Hd as [n Hn].
  destruct (Forall2_lookup_r _ _ _ _ _ Hall Hn)
    as (i & _ & line & _ & speaker & ct & extra & _ & Hu & _).
  destruct (findUser_Some roster _ _ Hu) as [Hin Hlow].
  split; [exact Hin | now rewrite Hlow].
Qed.

Lemma findUser_first (r1 r2 : list Character) (v : Character) (tag : string) :
  Forall (fun w => JS.toLowerCase (scriptPrefix w) <> tag) r1 ->
  JS.toLowerCase (scriptPrefix v) = tag ->
  findUser (r1 ++ v :: r2) tag = Some v.
Proof.
  intros Hr1 Hv. unfold findUser. induction Hr1 as [|w r1 Hw _ IH]; simpl.
  - now rewrite Hv, String.eqb_refl.
  - destruct (String.eqb_spec (JS.toLowerCase (scriptPrefix w)) tag);
      [contradiction | exact IH].
Qed.

(** X9. The user of every parsed dialogue is an entry of the roster, and it
    is the first entry with its lower-cased script prefix: when two entries
    share a prefix up to letter case, the later one is never used. *)
Theorem parsed_user_is_first_roster_match
  (roster : list Character) (raw : string) (d : Dialog) :
  In d (parseDialogue roster raw) ->
  In (user d) roster
  /\ findUser roster (JS.toLowerCase (scriptPrefix (user d))) = Some (user d)
  /\ (forall r1 r2 v,
        roster = r1 ++ v :: r2 ->
        JS.toLowerCase (scriptPrefix v) = JS.toLowerCase (scriptPrefix (user d)) ->
        Forall (fun w => JS.toLowerCase (scriptPrefix w)
                         <> JS.toLowerCase (scriptPrefix (user d))) r1 ->
        user d = v).
Proof.
  intros Hd.
  pose proof (parsed_user_first_match roster raw) as Hall.
  rewrite Forall_forall in Hall. rewrite <- list_elem_of_In in Hd.
  destruct (Hall d Hd) as [Hin Hfind].
  split; [exact Hin | split; [exact Hfind |]].
  intros r1 r2 v -> Hv Hr1.
  rewrite (findUser_first r1 r2 v _ Hr1 Hv) in Hfind. congruence.
Qed.

Lemma parsed_user_is_first_roster_match_witness :
  let twin := mkCharacter "Anna" "a" "Anna: " in
  let d := mkDialog alice 8 "hi" in
  In (user d) [alice; twin]
  /\ findUser [alice; twin] (JS.toLowerCase (scriptPrefix (user d))) = Some (user d)
  /\ (forall r1 r2 v,
        [alice; twin] = r1 ++ v :: r2 ->
        JS.toLowerCase (scriptPrefix v) = JS.toLowerCase (scriptPrefix (user d)) ->
        Forall (fun w => JS.toLowerCase (scriptPrefix w)
                         <> JS.toLowerCase (scriptPrefix (user d))) r1 ->
        user d = v).
Proof.
  intros twin d.
  apply (parsed_user_is_first_roster_match [alice; twin] "a: hi" d).
  vm_compute. left. reflexivity.
Defined.

(** ** Blocks parse independently *)

Section Blocks.
Variable roster : list Character.

(** Two runs whose dialogue lists end alike stay so: what lies before the
    common, non-empty end is never touched again. *)
Lemma parseLines_frame (lines : list string) (st st' : ParseState)
  (ds : list Dialog) :
  parsed st' <> [] ->
  parsed st = ds ++ parsed st' ->
  parsed (parseLines roster st lines) = ds ++ parsed (parseLines roster st' lines).
Proof.
  revert st st'. induction lines as [|l lines IH]; intros st st' Hne Hp;
    [exact Hp |].
  rewrite !parseLines_cons.
  destruct (exists_last Hne) as (q & d & Hq).
  destruct (JS.matchSpeakerLine l) as [[speaker ct]|] eqn:Hm.
  - destruct (findUser roster (JS.toLowerCase speaker)) as [u|] eqn:Hu.
    + rewrite (parseLine_recognized roster st l speaker ct u Hm Hu).
      rewrite (parseLine_recognized roster st' l speaker ct u Hm Hu).
      apply IH; simpl.
      * intros H. now apply app_eq_nil in H as [_ ?].
      * now rewrite Hp, app_assoc.
    + rewrite (parseLine_unresolved roster st l speaker ct Hm Hu).
      rewrite (parseLine_unresolved roster st' l speaker ct Hm Hu).
      apply IH; simpl; assumption.
  - rewrite (parseLine_continuation roster st l (ds ++ q) d Hm)
      by (now rewrite Hp, Hq, app_assoc).
    rewrite (parseLine_continuation roster st' l q d Hm Hq).
    apply IH; simpl.
    + intros H. now apply app_eq_nil in H as [_ ?].
    + now rewrite app_assoc.
Qed.

Lemma parseLines_from_recognized (r : string) (rest : list string) (st : ParseState) :
  recognized roster r = true ->
  parsed (parseLines roster st (r :: rest)) =
  parsed st ++ parsed (parseLines roster initialParseState (r :: rest)).
Proof.
  intros Hr. destruct (recognized_true_cases roster r Hr) as (sp & ct & u & Hm & Hu).
  rewrite !parseLines_cons.
  rewrite (parseLine_recognized roster st r sp ct u Hm Hu).
  rewrite (parseLine_recognized roster initialParseState r sp ct u Hm Hu).
  apply parseLines_frame; simpl; [discriminate | reflexivity].
Qed.

End Blocks.

(** X10. A text that starts with a recognized speaker line parses on its
    own: appended after any other text, on a new line, it contributes the
    same dialogues, and the dialogues of the text before it are left as
    they were. *)
Theorem parse_concat_at_speaker_line (roster : list Character) (a b : string) :
  match JS.split_lines b with
  | r :: _ => recognized roster r = true
  | [] => False
  end ->
  parseDialogue roster (a +:+ newline +:+ b) =
  parseDialogue roster a ++ parseDialogue roster b.
Proof.
  intros Hb. rewrite !parseDialogue_lines, split_lines_app, parseLines_app.
  destruct (JS.split_lines b) as [|r rest]; [contradiction |].
  now apply parseLines_from_recognized.
Qed.

Lemma parse_concat_at_speaker_line_witness :
  parseDialogue [alice] (("A: one" +:+ newline +:+ "more") +:+ newline
                         +:+ ("a: two" +:+ newline +:+ "B: x")) =
  parseDialogue [alice] ("A: one" +:+ newline +:+ "more")
  ++ parseDialogue [alice] ("a: two" +:+ newline +:+ "B: x").
Proof.
  apply (parse_concat_at_speaker_line [alice]). reflexivity.
Defined.

(** ** The speaker pattern, continued *)

Section LineTerminators.

Lemma allAlpha_no_CR (s : string) :
  allAlpha s = true -> containsChar JS.CR s = false.
Proof.
  induction s as [|c s IH]; simpl; [reflexivity |].
  intros H. apply andb_prop in H as [Hc Hs]. rewrite (IH Hs), Bool.orb_false_r.
  destruct (Ascii.eqb_spec c JS.CR) as [-> |]; [discriminate | reflexivity].
Qed.

Lemma noLineTerminator_no_char (s : string) :
  JS.noLineTerminator s = true ->
  containsChar JS.CR s = false /\ containsChar JS.LF s = false.
Proof.
  induction s as [|c s IH]; simpl; [split; reflexivity |].
  intros H. apply andb_prop in H as [Hc Hs]. destruct (IH Hs) as [-> ->].
  rewrite !Bool.orb_false_r.
  split.
  - destruct (Ascii.eqb_spec c JS.CR) as [-> |]; [discriminate | reflexivity].
  - destruct (Ascii.eqb_spec c JS.LF) as [-> |]; [discriminate | reflexivity].
Qed.

Lemma containsChar_app (c : ascii) (a b : string) :
  containsChar c (a +:+ b) = (containsChar c a || containsChar c b)%bool.
Proof.
  induction a as [|x a IH]; [reflexivity |].
  rewrite append_cons. simpl. now rewrite IH, Bool.orb_assoc.
Qed.

Lemma carriage_return_no_match (line : string) :
  containsChar JS.CR line = true -> JS.matchSpeakerLine line = None.
Proof.
  intros Hcr. destruct (JS.matchSpeakerLine line) as [[speaker ct]|] eqn:Hm;
    [|reflexivity].
  apply matchSpeakerLine_spec in Hm as (_ & Ha & Hct & ->).
  rewrite !containsChar_app, (allAlpha_no_CR _ Ha) in Hcr.
  destruct (noLineTerminator_no_char _ Hct) as [Hcr' _].
  rewrite Hcr' in Hcr. discriminate.
Qed.

End LineTerminators.

(** X11. A line that contains a carriage return is never a speaker line,
    whatever the roster: the atom [.] of the pattern refuses it and the
    pattern must reach the end of the line.  So a text all of whose lines
    end in a carriage return, or are empty, parses to no dialogue and every
    line is reported as invalid. *)
Theorem carriage_return_lines_not_parsed (roster : list Character) (raw : string) :
  Forall (fun l => containsChar JS.CR l = true \/ l = EmptyString)
         (JS.split_lines raw) ->
  Forall (fun l => JS.matchSpeakerLine l = None) (JS.split_lines raw)
  /\ parseDialogue roster raw = []
  /\ console (parseDialogueLog roster raw) =
     map (fun l => "Invalid dialogue line: " +:+ l) (JS.split_lines raw).
Proof.
  intros Hall.
  assert (Hnone : Forall (fun l => JS.matchSpeakerLine l = None) (JS.split_lines raw)).
  { eapply Forall_impl; [exact Hall |]. intros l [Hcr | ->];
      [now apply carriage_return_no_match | reflexivity]. }
  split; [exact Hnone |].
  unfold parseDialogue. rewrite parseDialogueLog_lines.
  rewrite (parseLines_dropped_empty roster _ initialParseState); [| | reflexivity].
  - split; [reflexivity |]. simpl. apply map_ext_Forall.
    eapply Forall_impl; [exact Hnone |]. intros l Hl. unfold diagnostic. simpl in Hl.
    now rewrite Hl.
  - eapply Forall_impl; [exact Hnone |]. intros l Hl. unfold recognized. simpl in Hl.
    now rewrite Hl.
Qed.

Lemma carriage_return_lines_not_parsed_witness :
  let raw := "A: hi" +:+ String JS.CR newline +:+ "A: bye" +:+ String JS.CR newline in
  Forall (fun l => JS.matchSpeakerLine l = None) (JS.split_lines raw)
  /\ parseDialogue [alice] raw = []
  /\ console (parseDialogueLog [alice] raw) =
     map (fun l => "Invalid dialogue line: " +:+ l) (JS.split_lines raw).
Proof.
  intros raw. apply (carriage_return_lines_not_parsed [alice] raw).
  assert (E : JS.split_lines raw =
              ["A: hi" +:+ String JS.CR EmptyString;
               "A: bye" +:+ String JS.CR EmptyString; EmptyString])
    by reflexivity.
  rewrite E.
  repeat (constructor; [first [left; reflexivity | right; reflexivity] |]).
  constructor.
Defined.

(** X12. The speaker pattern accepts exactly the lines made of a tag, a
    colon, a space and a text, where the tag is a non-empty run of letters
    and the text holds no line terminator; tag and text are then the two
    groups, so the decomposition of a line is unique. *)
Theorem speaker_pattern_characterization (line speaker ct : string) :
  (JS.matchSpeakerLine line = Some (speaker, ct) <->
   speaker <> EmptyString /\ allAlpha speaker = true
   /\ JS.noLineTerminator ct = true
   /\ line = speaker +:+ ": " +:+ ct)
  /\ (forall speaker' ct',
        allAlpha speaker = true -> allAlpha speaker' = true ->
        speaker +:+ ": " +:+ ct = speaker' +:+ ": " +:+ ct' ->
        speaker = speaker' /\ ct = ct').
Proof.
  split; [apply matchSpeakerLine_spec |].
  intros speaker' ct' Ha Ha' Heq.
  pose proof (spanAlpha_app speaker (": " +:+ ct) Ha eq_refl) as H1.
  pose proof (spanAlpha_app speaker' (": " +:+ ct') Ha' eq_refl) as H2.
  rewrite Heq, H2 in H1. injection H1 as Hs Hc. change (ct' = ct) in Hc.
  now subst.
Qed.

Lemma speaker_pattern_characterization_witness :
  JS.matchSpeakerLine "Bob: hi: there" = Some ("Bob", "hi: there")
  /\ ("Bob" = "Bob" /\ "hi: there" = "hi: there").
Proof.
  split.
  - apply (proj1 (speaker_pattern_characterization "Bob: hi: there" "Bob" "hi: there")).
    split; [discriminate | repeat split].
  - apply (proj2 (speaker_pattern_characterization "Bob: hi: there" "Bob" "hi: there")
             "Bob" "hi: there"); reflexivity.
Defined.

(** ** Trimming and the word count *)

Section Trim.

Lemma whitespace_not_alpha (c : ascii) :
  JS.isWhiteSpace c = true -> JS.isAlpha c = false.
Proof.
  intros Hw. destruct (JS.isAlpha c) eqn:Ha; [|reflexivity].
  apply isAlpha_not_whitespace in Ha. congruence.
Qed.

Lemma scanAlpha_trimStart (s : string) :
  JS.scanAlpha None (JS.trimStart s) = JS.scanAlpha None s.
Proof.
  induction s as [|c s IH]; [reflexivity |]. simpl.
  destruct (JS.isWhiteSpace c) eqn:Hw; [|reflexivity].
  now rewrite (whitespace_not_alpha c Hw).
Qed.

Lemma scanAlpha_trimEnd (s : string) (cur : option string) :
  JS.scanAlpha cur (JS.trimEnd s) = JS.scanAlpha cur s.
Proof.
  revert cur. induction s as [|c s IH]; intros cur; [reflexivity |].
  simpl. destruct (JS.trimEnd s) as [|x r] eqn:Ht.
  - destruct (JS.isWhiteSpace c) eqn:Hw.
    + rewrite (whitespace_not_alpha c Hw), <- IH. now destruct cur.
    + simpl. destruct (JS.isAlpha c); [now rewrite <- IH |].
      destruct cur; now rewrite <- IH.
  - simpl. destruct (JS.isAlpha c); [now rewrite <- IH |].
    destruct cur; now rewrite <- IH.
Qed.

Lemma scanAlpha_trim (s : string) :
  JS.scanAlpha None (JS.trim s) = JS.scanAlpha None s.
Proof. unfold JS.trim. now rewrite scanAlpha_trimEnd, scanAlpha_trimStart. Qed.

Lemma scanAlpha_empty_iff (s : string) :
  JS.scanAlpha None s = [] <-> (forall c, containsChar c s = true -> JS.isAlpha c = false).
Proof.
  induction s as [|c s IH]; simpl.
  - split; [intros _ x; discriminate | reflexivity].
  - destruct (JS.isAlpha c) eqn:Hc.
    + split.
      * intros H. now apply scanAlpha_extending in H.
      * intros H. specialize (H c). rewrite Ascii.eqb_refl in H.
        rewrite Hc in H. now specialize (H eq_refl).
    + rewrite IH. split.
      * intros H x Hx. apply Bool.orb_true_iff in Hx as [Hx | Hx]; [|now apply H].
        apply Ascii.eqb_eq in Hx. now subst.
      * intros H x Hx. apply H. now rewrite Hx, Bool.orb_true_r.
Qed.

End Trim.

(** X13. The trimming in [getSpanFromLine] never changes its result:
    white space holds no letter, so the span is 4 times the number of
    maximal alphabetic runs of the line as it stands.  The span is 0
    exactly when the line holds no letter at all. *)
Theorem span_ignores_trim (line : string) :
  getSpanFromLine line = 4 * Z.of_nat (maximalAlphaRuns line)
  /\ 0 <= getSpanFromLine line
  /\ (getSpanFromLine line = 0 <->
      forall c, containsChar c line = true -> JS.isAlpha c = false).
Proof.
  assert (Hlen : getSpanFromLine line = 4 * Z.of_nat (length (JS.scanAlpha None line))).
  { unfold getSpanFromLine, JS.matchAlphaGlobal. rewrite scanAlpha_trim.
    destruct (JS.scanAlpha None line); simpl length; lia. }
  split; [|split].
  - rewrite Hlen. f_equal. f_equal.
    pose proof (matchAlphaGlobal_length line) as H. unfold JS.matchAlphaGlobal in H.
    rewrite <- H. now destruct (JS.scanAlpha None line).
  - rewrite Hlen. lia.
  - rewrite Hlen, <- scanAlpha_empty_iff.
    destruct (JS.scanAlpha None line); simpl length; split; intros H;
      try reflexivity; try discriminate; lia.
Qed.

(** ** Thresholds *)

Section Thresholds.

Lemma sumSpans_app (a b : list Dialog) : sumSpans (a ++ b) = sumSpans a + sumSpans b.
Proof.
  induction a as [|d a IH]; simpl; [reflexivity |].
  fold (sumSpans (a ++ b)). fold (sumSpans a). lia.
Qed.

Lemma sumSpans_lower (m : Z) (l : list Dialog) :
  Forall (fun d => m <= span d) l -> m * Z.of_nat (length l) <= sumSpans l.
Proof.
  induction 1 as [|d l Hd _ IH]; simpl; [lia |].
  fold (sumSpans l). lia.
Qed.

Lemma threshold_gap (scriptData : ScriptData.t) (m : Z) (ds : list Dialog) (i j : nat) :
  Forall (fun d => m <= span d) ds ->
  (i <= j <= length ds)%nat ->
  threshold scriptData ds i + m * Z.of_nat (j - i) <= threshold scriptData ds j.
Proof.
  intros Hall Hij. unfold threshold.
  replace j with (i + (j - i))%nat at 2 by lia.
  rewrite <- take_take_drop, sumSpans_app.
  assert (Hlen : length (take (j - i) (drop i ds)) = (j - i)%nat).
  { rewrite length_take, length_drop. lia. }
  pose proof (sumSpans_lower m (take (j - i) (drop i ds))) as Hlow.
  rewrite Hlen in Hlow.
  assert (Forall (fun d => m <= span d) (take (j - i) (drop i ds))).
  { apply Forall_take, Forall_drop, Hall. }
  specialize (Hlow H). lia.
Qed.

Lemma decimal_inj (n m : Z) : JS.decimal n = JS.decimal m -> n = m.
Proof.
  unfold JS.decimal. intros H.
  assert (Hn : forall z, NilZero.int_of_string (NilZero.string_of_int (Z.to_int z))
                         = Some (Z.to_int z)).
  { intros z. apply NilZero.isi; destruct z; simpl; intros E; try discriminate;
      injection E; apply DecimalPos.Unsigned.to_uint_nonnil. }
  apply DecimalZ.to_int_inj.
  pose proof (Hn n) as H1. rewrite H, Hn in H1. congruence.
Qed.

Lemma numberToString_inj (n m : Z) :
  safeInteger n = true -> safeInteger m = true ->
  JS.numberToString (JS.Num n) = JS.numberToString (JS.Num m) -> n = m.
Proof.
  intros Hn Hm. rewrite !numberToString_safe by assumption. apply decimal_inj.
Qed.

Lemma parsed_span_ge_4 (roster : list Character) (raw : string) :
  Forall (fun d => 4 <= span d) (parseDialogue roster raw).
Proof.
  destruct (parseLines_provenance roster (JS.split_lines raw)) as (idxs & _ & Hall & _).
  apply Forall_forall. intros d Hd. apply list_elem_of_lookup in Hd as [n Hn].
  destruct (Forall2_lookup_r _ _ _ _ _ Hall Hn)
    as (i & _ & line & _ & speaker & ct & extra & Hm & _ & Hs & _).
  destruct (getSpanFromLine_speaker line speaker ct Hm) as (k & Hk & Hspan).
  rewrite Hs, Hspan. lia.
Qed.

(** The statements of the script are gated at the values the loop variable
    takes: statement [i] at its value after the first [i] dialogues. *)
Lemma generateLoop_gates (scriptData : ScriptData.t) (ds : list Dialog) :
  realScriptContent (generateLoop scriptData ds) =
  joinAll (imap (fun i d =>
    getSingleDialog scriptData
      (conversationSpan (generateLoop scriptData (take i ds))) d) ds).
Proof.
  induction ds as [|d ds IH] using rev_ind; [reflexivity |].
  rewrite generateLoop_snoc. cbn [generateStep realScriptContent].
  rewrite imap_app, joinAll_app, IH. f_equal.
  - f_equal. apply imap_ext. intros i x Hi. simpl.
    apply lookup_lt_Some in Hi. now rewrite take_app_le by lia.
  - simpl. rewrite Nat.add_0_r, take_app_length, append_nil_r. reflexivity.
Qed.

Lemma wholeScriptContent_gates (scriptData : ScriptData.t) (ds : list Dialog) :
  wholeScriptContent scriptData ds =
  getScriptIncrementer scriptData
    +:+ joinAll (imap (fun i d =>
          getSingleDialog scriptData
            (conversationSpan (generateLoop scriptData (take i ds))) d) ds)
    +:+ getScriptFinalStatement scriptData
          (conversationSpan (generateLoop scriptData (take (length ds) ds))).
Proof.
  unfold wholeScriptContent. now rewrite generateLoop_gates, firstn_all.
Qed.

(** Within the safe integers the loop variable holds the exact sums. *)
Lemma gate_safe (scriptData : ScriptData.t) (ds : list Dialog) (j : nat) :
  safeRun scriptData ds = true ->
  conversationSpan (generateLoop scriptData (take j ds)) =
  JS.Num (threshold scriptData ds j).
Proof.
  intros Hsafe. destruct (safeRun_spec scriptData ds Hsafe) as [Hspans Hsums].
  unfold generateLoop.
  rewrite (ofZ_safe (ScriptData.initialSpan scriptData)).
  2:{ specialize (Hsums 0%nat ltac:(lia)). unfold threshold in Hsums. simpl in Hsums.
      now rewrite Z.add_0_r in Hsums. }
  rewrite generateLoop_from.
  - simpl. reflexivity.
  - now apply Forall_take.
  - intros i Hi. rewrite take_take.
    rewrite length_take in Hi.
    replace (i `min` j)%nat with i by lia. apply Hsums. lia.
Qed.

End Thresholds.

(** X14. When a script is generated from parsed dialogues and the run
    stays within the safe integers, the scores at which its statements are
    gated, the values of the loop variable, grow by at least 4 from one
    statement to the next, the closing statement included: no two
    statements are gated at the same score and the gates are printed as
    different numerals. *)
Theorem parsed_thresholds_increase
  (scriptData : ScriptData.t) (roster : list Character) (raw : string) (i j : nat) :
  safeRun scriptData (parseDialogue roster raw) = true ->
  (i < j <= length (parseDialogue roster raw))%nat ->
  let ds := parseDialogue roster raw in
  let gate k := conversationSpan (generateLoop scriptData (take k ds)) in
  wholeScriptContent scriptData ds =
    getScriptIncrementer scriptData
    +:+ joinAll (imap (fun k d => getSingleDialog scriptData (gate k) d) ds)
    +:+ getScriptFinalStatement scriptData (gate (length ds))
  /\ exists ti tj,
       gate i = JS.Num ti /\ gate j = JS.Num tj
       /\ ti + 4 * Z.of_nat (j - i) <= tj
       /\ JS.numberToString (gate i) <> JS.numberToString (gate j).
Proof.
  intros Hsafe Hij ds gate. split; [apply wholeScriptContent_gates |].
  exists (threshold scriptData ds i), (threshold scriptData ds j).
  assert (Hgap : threshold scriptData ds i + 4 * Z.of_nat (j - i)
                 <= threshold scriptData ds j).
  { apply threshold_gap; [apply parsed_span_ge_4 | unfold ds; lia]. }
  destruct (safeRun_spec scriptData ds Hsafe) as [_ Hsums].
  unfold gate. rewrite !gate_safe by exact Hsafe.
  repeat split; try exact Hgap.
  intros Heq. apply numberToString_inj in Heq; [lia | |]; apply Hsums; unfold ds; lia.
Qed.

Lemma parsed_thresholds_increase_witness :
  let cfg := ScriptData.mk "S" 1 10 in
  let ds := parseDialogue [alice] ("A: Hello there" +:+ newline +:+ "A: bye") in
  let gate k := conversationSpan (generateLoop cfg (take k ds)) in
  wholeScriptContent cfg ds =
    getScriptIncrementer cfg
    +:+ joinAll (imap (fun k d => getSingleDialog cfg (gate k) d) ds)
    +:+ getScriptFinalStatement cfg (gate (length ds))
  /\ exists ti tj,
       gate 0%nat = JS.Num ti /\ gate 2%nat = JS.Num tj
       /\ ti + 4 * Z.of_nat (2 - 0) <= tj
       /\ JS.numberToString (gate 0%nat) <> JS.numberToString (gate 2%nat).
Proof.
  intros cfg ds.
  apply (parsed_thresholds_increase cfg [alice]
           ("A: Hello there" +:+ newline +:+ "A: bye") 0 2).
  - vm_compute. reflexivity.
  - vm_compute. lia.
Defined.

Section Append.
Variable scriptData : ScriptData.t.

(** The text built so far is only ever extended. *)
Lemma generateLoop_acc (ds : list Dialog) (acc : string) (t : JS.number) :
  fold_left (generateStep scriptData) ds (mkGenState acc t) =
  let g := fold_left (generateStep scriptData) ds (mkGenState EmptyString t) in
  mkGenState (acc +:+ realScriptContent g) (conversationSpan g).
Proof.
  revert acc t. induction ds as [|d ds IH]; intros acc t.
  - simpl. now rewrite append_nil_r.
  - cbn [fold_left].
    change (generateStep scriptData (mkGenState acc t) d)
      with (mkGenState (acc +:+ getSingleDialog scriptData t d) (JS.add t (span d))).
    change (generateStep scriptData (mkGenState EmptyString t) d)
      with (mkGenState (getSingleDialog scriptData t d) (JS.add t (span d))).
    rewrite IH. rewrite (IH (getSingleDialog scriptData t d)).
    cbn zeta. cbn [realScriptContent conversationSpan].
    now rewrite append_assoc.
Qed.

Lemma generateLoop_app (ds1 ds2 : list Dialog) :
  safeRun scriptData ds1 = true ->
  let g1 := generateLoop scriptData ds1 in
  let g2 := generateLoop (advanceSpan (sumSpans ds1) scriptData) ds2 in
  generateLoop scriptData (ds1 ++ ds2) =
    mkGenState (realScriptContent g1 +:+ realScriptContent g2) (conversationSpan g2)
  /\ wholeScriptContent scriptData (ds1 ++ ds2) =
     getScriptIncrementer scriptData
       +:+ realScriptContent g1 +:+ realScriptContent g2
       +:+ getScriptFinalStatement scriptData (conversationSpan g2).
Proof.
  intros Hsafe g1 g2.
  assert (H : generateLoop scriptData (ds1 ++ ds2) =
              mkGenState (realScriptContent g1 +:+ realScriptContent g2)
                         (conversationSpan g2)).
  { unfold generateLoop at 1. rewrite fold_left_app.
    fold (generateLoop scriptData ds1). fold g1.
    pose proof (generateLoop_closed scriptData ds1 Hsafe) as Hg1. fold g1 in Hg1.
    destruct (safeRun_spec scriptData ds1 Hsafe) as [_ Hsums].
    specialize (Hsums (length ds1) ltac:(lia)). unfold threshold in Hsums.
    rewrite firstn_all in Hsums.
    rewrite Hg1 at 1. rewrite generateLoop_acc. cbn zeta.
    unfold g2, generateLoop. cbn [advanceSpan ScriptData.initialSpan].
    rewrite (ofZ_safe _ Hsums).
    change (generateStep (advanceSpan (sumSpans ds1) scriptData))
      with (generateStep scriptData).
    unfold threshold. rewrite firstn_all. rewrite Hg1. reflexivity. }
  split; [exact H |].
  unfold wholeScriptContent. rewrite H. simpl. now rewrite append_assoc.
Qed.

End Append.

(** X15. Let a first list of dialogues run within the safe integers.
    Generating for it followed by a second list is generating for the
    first, then for the second with the initial span advanced by the total
    span of the first: the statements are concatenated and the loop
    variable, hence the closing threshold, is that of the second run. *)
Theorem generate_append (scriptData : ScriptData.t) (ds1 ds2 : list Dialog) :
  safeRun scriptData ds1 = true ->
  let g1 := generateLoop scriptData ds1 in
  let g2 := generateLoop (advanceSpan (sumSpans ds1) scriptData) ds2 in
  generateLoop scriptData (ds1 ++ ds2) =
    mkGenState (realScriptContent g1 +:+ realScriptContent g2) (conversationSpan g2)
  /\ wholeScriptContent scriptData (ds1 ++ ds2) =
     getScriptIncrementer scriptData
       +:+ realScriptContent g1 +:+ realScriptContent g2
       +:+ getScriptFinalStatement scriptData (conversationSpan g2).
Proof. apply generateLoop_app. Qed.

Lemma generate_append_witness :
  let cfg := ScriptData.mk "S" 1 10 in
  let ds1 := [mkDialog alice 12 "Hello there"] in
  let ds2 := [mkDialog alice (10 ^ 18) "a"; mkDialog alice 8 "b"] in
  let g1 := generateLoop cfg ds1 in
  let g2 := generateLoop (advanceSpan (sumSpans ds1) cfg) ds2 in
  generateLoop cfg (ds1 ++ ds2) =
    mkGenState (realScriptContent g1 +:+ realScriptContent g2) (conversationSpan g2)
  /\ wholeScriptContent cfg (ds1 ++ ds2) =
     getScriptIncrementer cfg
       +:+ realScriptContent g1 +:+ realScriptContent g2
       +:+ getScriptFinalStatement cfg (conversationSpan g2).
Proof.
  intros cfg ds1 ds2. apply (generate_append cfg ds1 ds2). vm_compute. reflexivity.
Defined.

(** ** Adding a dialogue by hand *)

Section AddDialogue.

Lemma getUserFromUsername_None (roster : list Character) (userName : string) :
  Forall (fun u => name u <> userName) roster ->
  getUserFromUsername roster userName = None.
Proof.
  unfold getUserFromUsername. induction 1 as [|u roster Hu _ IH]; simpl; [reflexivity |].
  destruct (String.eqb_spec (name u) userName); [contradiction | exact IH].
Qed.

Lemma getUserFromUsername_Some (roster : list Character) (userName : string) (u : Character) :
  In u roster -> name u = userName ->
  exists u', getUserFromUsername roster userName = Some u'
             /\ In u' roster /\ name u' = userName.
Proof.
  intros Hin Hname. unfold getUserFromUsername.
  destruct (find (fun user => String.eqb (name user) userName) roster) as [u'|] eqn:Hf.
  - exists u'. apply find_some in Hf as [Hin' Heq].
    repeat split; [exact Hin' | now apply String.eqb_eq].
  - apply (find_none _ _ Hf) in Hin. rewrite Hname, String.eqb_refl in Hin.
    discriminate.
Qed.

End AddDialogue.

(** X16. [addDialogue] with a name that no roster entry bears exactly,
    letter case included, changes nothing and logs that the user was not
    found; the script generated afterwards is the one generated before. *)
Theorem addDialogue_unknown_user (userName : string) (st : AppState) :
  Forall (fun u => name u <> userName) (usersFields st) ->
  addDialogue userName st = (st, ["User " +:+ userName +:+ " not found"])
  /\ generateDialogues (fst (addDialogue userName st)) = generateDialogues st.
Proof.
  intros Hno. unfold addDialogue.
  rewrite (getUserFromUsername_None _ _ Hno). split; reflexivity.
Qed.

Lemma addDialogue_unknown_user_witness :
  let st := mkAppState [] EmptyString EmptyString (ScriptData.mk "S" 1 10) [alice] in
  addDialogue "alice" st = (st, ["User " +:+ "alice" +:+ " not found"])
  /\ generateDialogues (fst (addDialogue "alice" st)) = generateDialogues st.
Proof.
  intros st. apply (addDialogue_unknown_user "alice" st).
  repeat constructor. discriminate.
Defined.

(** X17. [addDialogue] with the name of a roster entry appends one
    dialogue of span 0 and empty content for an entry of that name and
    logs nothing.  In the script generated afterwards the statements of the
    earlier dialogues are unchanged, the new statement is gated at the
    former closing threshold, and the closing statement is the same as
    before. *)
Theorem addDialogue_then_generate (userName : string) (st : AppState) (u : Character) :
  In u (usersFields st) -> name u = userName ->
  exists u',
    In u' (usersFields st) /\ name u' = userName
    /\ addDialogue userName st =
       (setDialogues (dialogues st ++ [mkDialog u' 0 EmptyString]) st, [])
    /\ let g := generateLoop (scriptData st) (dialogues st) in
       finalScript (generateDialogues (fst (addDialogue userName st))) =
       getScriptIncrementer (scriptData st)
         +:+ realScriptContent g
         +:+ getSingleDialog (scriptData st) (conversationSpan g)
               (mkDialog u' 0 EmptyString)
         +:+ getScriptFinalStatement (scriptData st) (conversationSpan g).
Proof.
  intros Hin Hname.
  destruct (getUserFromUsername_Some _ _ u Hin Hname) as (u' & Hf & Hin' & Hname').
  exists u'. unfold addDialogue. rewrite Hf.
  repeat split; try assumption.
  set (g := generateLoop (scriptData st) (dialogues st)). simpl.
  unfold wholeScriptContent. rewrite generateLoop_snoc.
  cbn [generateStep realScriptContent conversationSpan span].
  rewrite (add_zero _ (generateLoop_normal (scriptData st) (dialogues st))).
  fold g. now rewrite append_assoc.
Qed.

Lemma addDialogue_then_generate_witness :
  let st := mkAppState [mkDialog alice 12 "Hello there"] EmptyString EmptyString
                       (ScriptData.mk "S" 1 10) [alice] in
  exists u',
    In u' (usersFields st) /\ name u' = "Alice"
    /\ addDialogue "Alice" st =
       (setDialogues (dialogues st ++ [mkDialog u' 0 EmptyString]) st, [])
    /\ let g := generateLoop (scriptData st) (dialogues st) in
       finalScript (generateDialogues (fst (addDialogue "Alice" st))) =
       getScriptIncrementer (scriptData st)
         +:+ realScriptContent g
         +:+ getSingleDialog (scriptData st) (conversationSpan g)
               (mkDialog u' 0 EmptyString)
         +:+ getScriptFinalStatement (scriptData st) (conversationSpan g).
Proof.
  intros st. apply (addDialogue_then_generate "Alice" st alice).
  - left. reflexivity.
  - reflexivity.
Defined.

(** ** Editing a span *)

Section EditSpan.

Lemma sumSpans_alter (v : Z) (l : list Dialog) (i : nat) (d : Dialog) :
  l !! i = Some d ->
  sumSpans (alter (setSpan v) i l) = sumSpans l + (v - span d).
Proof.
  revert i. induction l as [|x l IH]; intros [|i] Hi; try discriminate.
  - injection Hi as ->. simpl. fold (sumSpans l). lia.
  - simpl in Hi. specialize (IH i Hi).
    change (sumSpans (alter (setSpan v) (S i) (x :: l)))
      with (span x + sumSpans (alter (setSpan v) i l)).
    change (sumSpans (x :: l)) with (span x + sumSpans l). lia.
Qed.

Lemma threshold_alter (scriptData : ScriptData.t) (v : Z) (l : list Dialog)
  (i j : nat) (d : Dialog) :
  l !! i = Some d ->
  threshold scriptData (alter (setSpan v) i l) j =
  threshold scriptData l j + (if (i <? j)%nat then v - span d else 0).
Proof.
  intros Hi. unfold threshold.
  destruct (i <? j)%nat eqn:Hij.
  - apply Nat.ltb_lt in Hij. rewrite take_alter_lt by exact Hij.
    rewrite (sumSpans_alter v (take j l) i d); [lia |].
    now rewrite lookup_take_lt.
  - apply Nat.ltb_ge in Hij. rewrite take_alter_ge by exact Hij. lia.
Qed.

End EditSpan.

(** X18. Changing the span of the dialogue at a position through the span
    input keeps users and contents.  When the runs before and after the
    change stay within the safe integers, the scores at which the script
    gates its statements are unchanged up to and including the edited
    dialogue, and every later one, the closing one included, moves by the
    difference between the new and the old span.  The input in seconds
    does the same with 20 times the value entered. *)
Theorem span_edit_shifts_later_thresholds
  (st : AppState) (index j : nat) (v : Z) (d : Dialog) :
  dialogues st !! index = Some d ->
  safeRun (scriptData st) (dialogues st) = true ->
  safeRun (scriptData st) (dialogues (onChangeSpan index v st)) = true ->
  let st' := onChangeSpan index v st in
  let gate s k :=
    conversationSpan (generateLoop (scriptData s) (take k (dialogues s))) in
  dialogues st' !! index = Some (mkDialog (user d) v (content d))
  /\ map user (dialogues st') = map user (dialogues st)
  /\ map content (dialogues st') = map content (dialogues st)
  /\ gate st j = JS.Num (threshold (scriptData st) (dialogues st) j)
  /\ gate st' j =
     JS.Num (threshold (scriptData st) (dialogues st) j
             + (if (index <? j)%nat then v - span d else 0))
  /\ onChangeSpanSeconds index v st = onChangeSpan index (20 * v) st.
Proof.
  intros Hd Hsafe Hsafe' st' gate.
  assert (G1 : gate st j = JS.Num (threshold (scriptData st) (dialogues st) j))
    by (apply gate_safe; exact Hsafe).
  assert (G2 : gate st' j = JS.Num (threshold (scriptData st) (dialogues st') j))
    by (apply (gate_safe (scriptData st) (dialogues st') j Hsafe')).
  rewrite G1, G2. clear G1 G2 gate.
  unfold st', onChangeSpanSeconds, onChangeSpan. simpl.
  repeat split.
  - rewrite list_lookup_alter_eq, Hd. reflexivity.
  - apply list_eq. intros k. rewrite !list_lookup_fmap, list_lookup_alter.
    case_decide; [subst; now destruct (dialogues st !! k) | reflexivity].
  - apply list_eq. intros k. rewrite !list_lookup_fmap, list_lookup_alter.
    case_decide; [subst; now destruct (dialogues st !! k) | reflexivity].
  - f_equal. now apply threshold_alter.
  - now rewrite Z.mul_comm.
Qed.

Lemma span_edit_shifts_later_thresholds_witness :
  let d0 := mkDialog alice 12 "Hello there" in
  let d1 := mkDialog alice 8 "bye" in
  let st := mkAppState [d0; d1] EmptyString EmptyString (ScriptData.mk "S" 1 10) [alice] in
  let st' := onChangeSpan 0 40 st in
  let gate s k :=
    conversationSpan (generateLoop (scriptData s) (take k (dialogues s))) in
  dialogues st' !! 0%nat = Some (mkDialog (user d0) 40 (content d0))
  /\ map user (dialogues st') = map user (dialogues st)
  /\ map content (dialogues st') = map content (dialogues st)
  /\ gate st 2%nat = JS.Num (threshold (scriptData st) (dialogues st) 2)
  /\ gate st' 2%nat =
     JS.Num (threshold (scriptData st) (dialogues st) 2
             + (if (0 <? 2)%nat then 40 - span d0 else 0))
  /\ onChangeSpanSeconds 0 40 st = onChangeSpan 0 (20 * 40) st.
Proof.
  intros d0 d1 st.
  apply (span_edit_shifts_later_thresholds st 0 2 40 d0); reflexivity.
Defined.

(** ** The content of a block, line by line *)

Section ContentLines.

Lemma block_text_joinLines (ct : string) (conts : list string) :
  ct +:+ joinAll (map (fun l => newline +:+ l) conts) = joinLines (ct :: conts).
Proof.
  revert ct. induction conts as [|c conts IH]; intros ct.
  - simpl. apply append_nil_r.
  - change (joinLines (ct :: c :: conts)) with (ct +:+ newline +:+ joinLines (c :: conts)).
    rewrite <- IH. simpl. fold (joinAll (map (fun l => newline +:+ l) conts)).
    now rewrite append_assoc.
Qed.

Lemma Forall_filter_bool {A} (P : A -> Prop) (f : A -> bool) (l : list A) :
  Forall P l -> Forall P (List.filter f l).
Proof.
  induction 1 as [|x l Hx _ IH]; simpl; [constructor |].
  destruct (f x); [constructor; assumption | assumption].
Qed.

End ContentLines.

(** X19. Multi-line content splits back into its source lines.  Under the
    conditions of a block, a recognized speaker line followed by lines
    without recognized speaker up to the next recognized one or the end,
    the content of its dialogue split at the line feeds is the text of the
    speaker line followed by the lines of the block that do not match the
    pattern, in order. *)
Theorem block_content_lines
  (roster : list Character) (raw : string) (pre mid rest : list string)
  (L speaker ct : string) (u : Character) :
  JS.split_lines raw = pre ++ L :: mid ++ rest ->
  JS.matchSpeakerLine L = Some (speaker, ct) ->
  findUser roster (JS.toLowerCase speaker) = Some u ->
  Forall (fun l => recognized roster l = false) mid ->
  match rest with [] => True | r :: _ => recognized roster r = true end ->
  exists d,
    parseDialogue roster raw
      !! length (parsed (parseLines roster initialParseState pre)) = Some d
    /\ user d = u
    /\ JS.split_lines (content d) = ct :: List.filter isContinuation mid.
Proof.
  intros Hsplit Hm Hu Hmid Hrest.
  set (before := parseLines roster initialParseState pre).
  set (conts := List.filter isContinuation mid).
  set (dL := mkDialog u (getSpanFromLine L)
               (ct +:+ joinAll (map (fun l => newline +:+ l) conts))).
  assert (Hlines : JS.split_lines (content dL) = ct :: conts).
  { simpl. rewrite block_text_joinLines. apply split_lines_join; [discriminate |].
    constructor.
    - apply matchSpeakerLine_spec in Hm as (_ & _ & Hct & _).
      now apply noLineTerminator_no_char in Hct as [_ ?].
    - apply Forall_filter_bool.
      pose proof (split_lines_no_LF raw) as Hraw. rewrite Hsplit in Hraw.
      apply Forall_app in Hraw as [_ Hraw]. apply Forall_cons in Hraw as [_ Hraw].
      now apply Forall_app in Hraw as [? _]. }
  exists dL. split; [|split; [reflexivity | exact Hlines]].
  assert (Hblock : parsed (parseLines roster initialParseState (pre ++ L :: mid)) =
                   parsed before ++ [dL]).
  { rewrite parseLines_app, parseLines_cons. fold before.
    rewrite (parseLine_recognized roster before L speaker ct u Hm Hu).
    rewrite (parseLines_block roster mid
               (mkParseState (parsed before ++ [mkDialog u (getSpanFromLine L) ct])
                             (console before))
               (parsed before) (mkDialog u (getSpanFromLine L) ct) Hmid eq_refl).
    reflexivity. }
  rewrite parseDialogue_lines, Hsplit.
  replace (pre ++ L :: mid ++ rest) with ((pre ++ L :: mid) ++ rest)
    by (rewrite <- app_assoc; reflexivity).
  rewrite parseLines_app.
  set (st := parseLines roster initialParseState (pre ++ L :: mid)) in *.
  destruct rest as [|r rest].
  - simpl. rewrite Hblock. now apply list_lookup_middle.
  - destruct (recognized_true_cases roster r Hrest) as (sp & c & v & Hmr & Hur).
    rewrite parseLines_cons.
    rewrite (parseLine_recognized roster st r sp c v Hmr Hur).
    edestruct (parseLines_stable roster rest
                 (mkParseState (parsed st ++ [mkDialog v (getSpanFromLine r) c])
                               (console st))
                 (parsed st) (mkDialog v (getSpanFromLine r) c))
      as (extra & tail & Heq); [reflexivity |].
    rewrite Heq, Hblock, <- app_assoc. now apply list_lookup_middle.
Qed.

Lemma block_content_lines_witness :
  let raw := "A: hi" +:+ newline +:+ "foo" +:+ newline +:+ "B: x" +:+ newline
             +:+ "bar" +:+ newline +:+ "A: bye" in
  exists d,
    parseDialogue [alice] raw
      !! length (parsed (parseLines [alice] initialParseState [])) = Some d
    /\ user d = alice
    /\ JS.split_lines (content d) = "hi" :: List.filter isContinuation ["foo"; "B: x"; "bar"].
Proof.
  intros raw.
  apply (block_content_lines [alice] raw [] ["foo"; "B: x"; "bar"] ["A: bye"]
           "A: hi" "A" "hi" alice).
  - reflexivity.
  - reflexivity.
  - reflexivity.
  - repeat constructor.
  - reflexivity.
Defined.
